(** * NetFUSES: fusing and collapsing graphs

    A shallow embedding of [src/netfuses.py] (the functions [fuse],
    [collapse_fused_graph] and [convert_graph]) and of
    [src/netfuses/netfuses.py] (the class [NetworkFuser]), together with
    the part of networkx 1.11 they call.

    Python sets and dicts are finite sets and maps ([gset], [gmap]).  Their
    iteration order is not fixed by the language, so every loop over a set
    runs over [set_order X], an arbitrary enumeration of [X]. *)

From stdpp Require Import gmap strings list fin_maps fin_sets.
From Stdlib Require Import ZArith Lia Sorted.

(** ** Exceptions *)

Inductive Exn : Type :=
  | ZeroDivisionError
  | ValueError
  | AttributeError
  | KeyError
  | TypeError
  | AssertionError
  | OracleError (msg : string).

Inductive result (A : Type) : Type :=
  | Ok (a : A)
  | Raise (e : Exn).
Arguments Ok {A} a.
Arguments Raise {A} e.

#[global] Instance result_ret : MRet result := λ A, Ok.
#[global] Instance result_bind : MBind result :=
  λ A B f r, match r with Ok a => f a | Raise e => Raise e end.

Definition is_ok {A} (r : result A) : bool :=
  match r with Ok _ => true | Raise _ => false end.

(** ** networkx 1.11: [Graph]

    [nx.Graph] keeps a dict [adj] from node to the dict of its neighbours;
    the data attached to nodes and edges is never read by NetFUSES, so a
    graph is its adjacency: node [n] is in the graph when [n] is a key. *)

Abbreviation Graph K := (gmap K (gset K)).

Section networkx_graph.
Context `{Countable K}.

(* G.adj[n], for a node of the graph *)
Definition nx_adj (G : Graph K) (n : K) : gset K := default ∅ (G !! n).

(* v in G.adj[u], False when u is not a node *)
Definition nx_has_edge (G : Graph K) (u v : K) : Prop := v ∈ nx_adj G u.

(* if n not in self.node: self.adj[n] = {} *)
Definition nx_add_node (n : K) (G : Graph K) : Graph K :=
  match G !! n with
  | Some _ => G
  | None => <[n := ∅]> G
  end.

Definition nx_add_nodes_from (ns : list K) (G : Graph K) : Graph K :=
  foldl (λ G n, nx_add_node n G) G ns.

(* adds both ends as nodes, then adj[u][v] = dd; adj[v][u] = dd *)
Definition nx_add_edge (u v : K) (G : Graph K) : Graph K :=
  let G1 := nx_add_node v (nx_add_node u G) in
  let G2 := <[u := nx_adj G1 u ∪ {[v]}]> G1 in
  <[v := nx_adj G2 v ∪ {[u]}]> G2.

Definition nx_add_edges_from (es : list (K * K)) (G : Graph K) : Graph K :=
  foldl (λ G e, nx_add_edge e.1 e.2 G) G es.

(* What the methods of nx.Graph maintain: a neighbour is a node, and
   adjacency is symmetric. *)
Definition graph_wf (G : Graph K) : Prop :=
  ∀ u v, v ∈ nx_adj G u → v ∈ dom G ∧ u ∈ nx_adj G v.

End networkx_graph.

(** ** The two modules *)

Section NetFUSES.
Context `{Countable Node}.
Context {Threshold Kwargs : Type}.

(* Iteration order of a Python set (and of the keys of a dict). *)
Variable set_order : gset Node → list Node.

(* isinstance(u, str): keyword arguments must be strings *)
Variable is_str : Node → bool.

(* the float comparison [>] *)
Variable gt : Threshold → Threshold → bool.

(** *** [fuse] (src/netfuses.py) *)

(* A line written to standard output. *)
Inductive Out : Type :=
  | Progress (i total : nat) (t : Threshold)
  | PerformedFuse.

(* simfn(u, V, t, **kwargs) *)
Definition Oracle : Type :=
  Node → gset Node → Threshold → Kwargs → result (list Node).

(* if verbose is not None and i % verbose == 0: print(...) *)
Definition progress (verbose : option Z) (i total : nat) (t : Threshold)
    : result (list Out) :=
  match verbose with
  | None => Ok []
  | Some k =>
      if decide (k = 0%Z) then Raise ZeroDivisionError
      else if decide ((Z.of_nat i `mod` k)%Z = 0%Z) then Ok [Progress i total t]
      else Ok []
  end.

(* The body of [for i, u in enumerate(list(union), 1)]; the first component
   of the result is what has been printed. *)
Fixpoint fuse_loop (t : Threshold) (simfn : Oracle) (kwargs : Kwargs)
    (verbose : option Z) (union : gset Node) (i : nat) (us : list Node)
    (G : Graph Node) (out : list Out) : list Out * result (Graph Node) :=
  match us with
  | [] => (out, Ok G)
  | u :: us' =>
      match progress verbose i (size union) t with
      | Raise e => (out, Raise e)
      | Ok line =>
          let valid_nodes := union ∖ {[u]} in
          match simfn u valid_nodes t kwargs with
          | Raise e => (out ++ line, Raise e)
          | Ok analogs =>
              fuse_loop t simfn kwargs verbose union (S i) us'
                (nx_add_edges_from ((λ a, (u, a)) <$> analogs) G)
                (out ++ line)
          end
      end
  end.

(* set().union( *map(set, graphs)) *)
Definition vertex_union (graphs : list (Graph Node)) : gset Node :=
  ⋃ (dom <$> graphs).

Definition fuse (t : Threshold) (simfn : Oracle) (graphs : list (Graph Node))
    (verbose : option Z) (kwargs : Kwargs)
    : list Out * result (Graph Node) :=
  let union := vertex_union graphs in
  let G := nx_add_nodes_from (set_order union) ∅ in
  let G := nx_add_edges_from ((λ u, (u, u)) <$> set_order union) G in
  match fuse_loop t simfn kwargs verbose union 1 (set_order union) G [] with
  | (out, Ok G) =>
      (out ++ match verbose with Some _ => [PerformedFuse] | None => [] end,
       Ok G)
  | (out, Raise e) => (out, Raise e)
  end.

(** *** [NetworkFuser.fuse] (src/netfuses/netfuses.py) *)

(* The instance attributes of a NetworkFuser object. *)
Inductive Attr : Type :=
  | AttrFunc (f : Node → Node → Threshold)
  | AttrFloat (x : Threshold).

Abbreviation Self := (gmap string Attr).

Definition getattr (self : Self) (name : string) : result Attr :=
  match self !! name with
  | Some a => Ok a
  | None => Raise AttributeError
  end.

(* __init__: self.similarity_func = simfn; self.t = threshold *)
Definition NetworkFuser_init (simfn : Node → Node → Threshold)
    (threshold : Threshold) : Self :=
  <["t" := AttrFloat threshold]> (<["similarity_func" := AttrFunc simfn]> ∅).

(* return self.similarit_func(u, v) > self.t *)
Definition NetworkFuser_above_threshold (self : Self) (u v : Node)
    : result bool :=
  f ← getattr self "similarit_func";
  match f with
  | AttrFunc f =>
      t ← getattr self "t";
      match t with
      | AttrFloat t => Ok (gt (f u v) t)
      | AttrFunc _ => Raise TypeError
      end
  | AttrFloat _ => Raise TypeError
  end.

(* The format string '\r{0}\r{1:5d/{2:5d}, t={3}' has an unclosed
   replacement field, so str.format raises ValueError before anything is
   printed. *)
Definition NetworkFuser_progress (self : Self) (verbose : option Z) (i : nat)
    : result unit :=
  match verbose with
  | None => Ok ()
  | Some k =>
      if decide (k = 0%Z) then Raise ZeroDivisionError
      else if decide ((Z.of_nat i `mod` k)%Z = 0%Z)
           then _ ← getattr self "t"; Raise ValueError
      else Ok ()
  end.

(* The graph built by the method has the nodes of the inputs ([inl]) and,
   as second end of the edges of the scan, the booleans of [analogs]
   ([inr]). *)
Fixpoint NetworkFuser_fuse_loop (self : Self) (verbose : option Z)
    (union : gset Node) (i : nat) (us : list Node) (G : Graph (Node + bool))
    : result (Graph (Node + bool)) :=
  match us with
  | [] => Ok G
  | u :: us' =>
      _ ← NetworkFuser_progress self verbose i;
      let valid_nodes := union ∖ {[u]} in
      analogs ← mapM (NetworkFuser_above_threshold self u)
                     (set_order valid_nodes);
      NetworkFuser_fuse_loop self verbose union (S i) us'
        (nx_add_edges_from ((λ a, (inl u, inr a)) <$> analogs) G)
  end.

Definition NetworkFuser_fuse (self : Self) (graphs : list (Graph Node))
    (verbose : option Z) : result (Graph (Node + bool)) :=
  let union := vertex_union graphs in
  let us := inl <$> set_order union in
  let G := nx_add_nodes_from us ∅ in
  let G := nx_add_edges_from ((λ u, (u, u)) <$> us) G in
  NetworkFuser_fuse_loop self verbose union 1 (set_order union) G.

(** *** networkx 1.11: connected components *)

(* nextlevel.update(G[v]) for every v of the level that is not yet seen *)
Definition neighbours_of (G : Graph Node) (level : gset Node) : gset Node :=
  ⋃ (nx_adj G <$> elements level).

(* The [while nextlevel] loop of _plain_bfs.  A level is a set, so the test
   [v not in seen] selects the nodes of the level that were not seen when
   the level started. *)
Fixpoint plain_bfs_loop (fuel : nat) (G : Graph Node)
    (seen nextlevel : gset Node) : gset Node :=
  match fuel with
  | 0 => seen
  | S fuel' =>
      if decide (nextlevel = ∅) then seen
      else
        let fresh := nextlevel ∖ seen in
        plain_bfs_loop fuel' G (seen ∪ fresh) (neighbours_of G fresh)
  end.

(* set(_plain_bfs(G, source)); the loop runs at most once per node of the
   graph, and once more to find the last level empty. *)
Definition plain_bfs (G : Graph Node) (source : Node) : gset Node :=
  plain_bfs_loop (size (dom G) + 2) G ∅ {[source]}.

(* One step of [for v in G: if v not in seen: ...] in
   connected_components. *)
Definition components_step (G : Graph Node)
    (st : gset Node * list (gset Node)) (v : Node)
    : gset Node * list (gset Node) :=
  if decide (v ∈ st.1) then st
  else let c := plain_bfs G v in (st.1 ∪ c, st.2 ++ [c]).

(* nx.connected_component_subgraphs(G): of each subgraph the callers use
   only its nodes (len, iteration, membership), so a component is its node
   set. *)
Definition nx_connected_component_subgraphs (G : Graph Node)
    : list (gset Node) :=
  (foldl (components_step G) (∅, []) (set_order (dom G))).2.

(* sorted(..., key=len): a stable sort *)
Fixpoint insert_by_len (c : gset Node) (cs : list (gset Node))
    : list (gset Node) :=
  match cs with
  | [] => [c]
  | d :: cs' =>
      if decide (size c ≤ size d) then c :: d :: cs'
      else d :: insert_by_len c cs'
  end.

Definition sorted_by_len (cs : list (gset Node)) : list (gset Node) :=
  foldr insert_by_len [] cs.

(** *** networkx 1.11: [MultiGraph]

    The nodes of the collapsed graph are component ids.  A multigraph keeps
    one entry per added edge; the edges are listed here in the order of
    their insertion.  [mg_fused_set] is the node attribute of that name. *)

Record MultiGraph : Type := {
  mg_nodes : gset nat;
  mg_edges : list (nat * nat);
  mg_fused_set : gmap nat (gset Node)
}.

(* nx.MultiGraph() *)
Definition mg_empty : MultiGraph :=
  {| mg_nodes := ∅; mg_edges := []; mg_fused_set := ∅ |}.

Definition mg_add_node (n : nat) (M : MultiGraph) : MultiGraph :=
  {| mg_nodes := mg_nodes M ∪ {[n]};
     mg_edges := mg_edges M;
     mg_fused_set := mg_fused_set M |}.

(* a new key for every call: parallel edges and self-loops accumulate *)
Definition mg_add_edge (u v : nat) (M : MultiGraph) : MultiGraph :=
  {| mg_nodes := mg_nodes M ∪ {[u]} ∪ {[v]};
     mg_edges := mg_edges M ++ [(u, v)];
     mg_fused_set := mg_fused_set M |}.

Definition mg_add_edges_from (es : list (nat * nat)) (M : MultiGraph)
    : MultiGraph :=
  foldl (λ M e, mg_add_edge e.1 e.2 M) M es.

(* nx.set_node_attributes(M, 'fused_set', values) *)
Definition mg_set_fused_set (values : gmap nat (gset Node)) (M : MultiGraph)
    : MultiGraph :=
  {| mg_nodes := mg_nodes M;
     mg_edges := mg_edges M;
     mg_fused_set := values ∪ mg_fused_set M |}.

(* M.number_of_edges(u, v): an edge is an unordered pair *)
Definition mg_number_of_edges (M : MultiGraph) (u v : nat) : nat :=
  length (filter (λ e, e = (u, v) ∨ e = (v, u)) (mg_edges M)).

(** *** [collapse_fused_graph] and [NetworkFuser.collapse] *)

(* What a caller can pass in [*graphs]. *)
Inductive PyVal : Type :=
  | PyGraph (g : Graph Node)
  | PyList (l : list Node)
  | PyInt (z : Z).

(* isinstance(g, nx.Graph) *)
Definition isinstance_Graph (g : PyVal) : bool :=
  match g with PyGraph _ => true | _ => false end.

(* [for Gi in filter(lambda g: node in g, graphs)]: extends self_loops
   (first component) and neighbors (second component). *)
Fixpoint scan_graphs (component : gset Node) (node : Node)
    (graphs : list PyVal) (acc : list Node * list Node)
    : result (list Node * list Node) :=
  match graphs with
  | [] => Ok acc
  | PyGraph Gi :: graphs' =>
      if decide (node ∈ dom Gi) then
        let ns := set_order (nx_adj Gi node) in
        scan_graphs component node graphs'
          (acc.1 ++ filter (.∈ component) ns, acc.2 ++ ns)
      else scan_graphs component node graphs' acc
  | PyList l :: graphs' =>
      (* a list has no method neighbors *)
      if decide (node ∈ l) then Raise AttributeError
      else scan_graphs component node graphs' acc
  | PyInt _ :: _ =>
      (* argument of type int is not iterable *)
      Raise TypeError
  end.

(* [for node in component] *)
Fixpoint scan_nodes (component : gset Node) (graphs : list PyVal)
    (nodes : list Node) (acc : list Node * list Node)
    : result (list Node * list Node) :=
  match nodes with
  | [] => Ok acc
  | node :: nodes' =>
      acc' ← scan_graphs component node graphs acc;
      scan_nodes component graphs nodes' acc'
  end.

(* collapsed.add_edges_from((i, node2fuse_id[u]) for u in neighbors): the
   generator is consumed edge by edge, so the edges before a failing lookup
   stay in the graph. *)
Fixpoint add_mapped_edges (i : nat) (node2fuse_id : gmap Node nat)
    (neighbors : list Node) (collapsed : MultiGraph)
    : MultiGraph * result unit :=
  match neighbors with
  | [] => (collapsed, Ok ())
  | u :: neighbors' =>
      match node2fuse_id !! u with
      | None => (collapsed, Raise KeyError)
      | Some j =>
          add_mapped_edges i node2fuse_id neighbors' (mg_add_edge i j collapsed)
      end
  end.

(* node2fuse_id.update( **{u:i for u in component}) *)
Definition update_node2fuse_id (i : nat) (component : gset Node)
    (node2fuse_id : gmap Node nat) : result (gmap Node nat) :=
  if forallb is_str (set_order component)
  then Ok (gset_to_gmap i component ∪ node2fuse_id)
  else Raise TypeError.

(* [for i, component in enumerate(conn_comps)], the same in both modules.
   The first component of the result is the graph object [collapsed] as the
   loop leaves it. *)
Fixpoint collapse_loop (graphs : list PyVal) (i : nat)
    (conn_comps : list (gset Node))
    (id2fused_set : gmap nat (gset Node)) (node2fuse_id : gmap Node nat)
    (collapsed : MultiGraph)
    : MultiGraph * result (gmap nat (gset Node) * gmap Node nat) :=
  match conn_comps with
  | [] => (collapsed, Ok (id2fused_set, node2fuse_id))
  | component :: conn_comps' =>
      let id2fused_set := <[i := component]> id2fused_set in
      match update_node2fuse_id i component node2fuse_id with
      | Raise e => (collapsed, Raise e)
      | Ok node2fuse_id =>
          let collapsed := mg_add_node i collapsed in
          match scan_nodes component graphs (set_order component) ([], []) with
          | Raise e => (collapsed, Raise e)
          | Ok (self_loops, neighbors) =>
              match add_mapped_edges i node2fuse_id neighbors collapsed with
              | (collapsed, Raise e) => (collapsed, Raise e)
              | (collapsed, Ok _) =>
                  let collapsed :=
                    mg_add_edges_from
                      (replicate (length self_loops) (i, i)) collapsed in
                  collapse_loop graphs (S i) conn_comps'
                    id2fused_set node2fuse_id collapsed
              end
          end
      end
  end.

(* src/netfuses.py.  [collapsed] is the object bound to the parameter of
   that name; the result pairs its final state with what the call returns
   beside it, or with the exception raised. *)
Definition collapse_fused_graph (fuser : Graph Node) (graphs : list PyVal)
    (collapsed : MultiGraph)
    : MultiGraph * result (gmap nat (gset Node) * gmap Node nat) :=
  let conn_comps := sorted_by_len (nx_connected_component_subgraphs fuser) in
  collapse_loop graphs 0 conn_comps ∅ ∅ collapsed.

(* src/netfuses/netfuses.py *)
Definition NetworkFuser_collapse (fuser : Graph Node) (graphs : list PyVal)
    (collapsed : MultiGraph) : MultiGraph * result (gmap Node nat) :=
  if forallb isinstance_Graph graphs then
    let conn_comps := sorted_by_len (nx_connected_component_subgraphs fuser) in
    match collapse_loop graphs 0 conn_comps ∅ ∅ collapsed with
    | (collapsed, Ok (id2fused_set, node2fuse_id)) =>
        (mg_set_fused_set id2fused_set collapsed, Ok node2fuse_id)
    | (collapsed, Raise e) => (collapsed, Raise e)
    end
  else (collapsed, Raise AssertionError).

(* The default [collapsed=nx.MultiGraph()] is evaluated once, when the
   function is defined: every call that leaves the parameter out receives
   that one object.  [default] is its state before the call; the first
   component of the result is its state after it, which is also the graph
   the call returns. *)
Definition collapse_fused_graph_default (default : MultiGraph)
    (fuser : Graph Node) (graphs : list PyVal)
    : MultiGraph * result (gmap nat (gset Node) * gmap Node nat) :=
  collapse_fused_graph fuser graphs default.

Definition NetworkFuser_collapse_default (default : MultiGraph)
    (fuser : Graph Node) (graphs : list PyVal)
    : MultiGraph * result (gmap Node nat) :=
  NetworkFuser_collapse fuser graphs default.

(** *** Notions used to state the properties *)

(* The oracle, invoked with [u] as source and [V ∖ {u}] as candidate set,
   returns [v]. *)
Definition reports (simfn : Oracle) (V : gset Node) (t : Threshold)
    (kwargs : Kwargs) (u v : Node) : Prop :=
  ∃ analogs, simfn u (V ∖ {[u]}) t kwargs = Ok analogs ∧ v ∈ analogs.


(* sum(len(members) for members in id2fused_set.values()) *)
Definition total_members (id2fused_set : gmap nat (gset Node)) : nat :=
  map_fold (λ _ members acc, size members + acc) 0 id2fused_set.

(* The number of adjacency entries from [c] to [d]: for every node [u] of [c]
   and every source graph, the neighbours of [u] in that graph that lie in
   [d].  An undirected edge with two distinct ends is two entries, one in
   the adjacency of each end; a self-loop is one. *)
Definition entries (gs : list (Graph Node)) (c d : gset Node) : nat :=
  sum_list (u ← elements c; g ← gs; [size (nx_adj g u ∩ d)]).

(* The sets of a list are pairwise disjoint. *)
Fixpoint disjoint_list (cs : list (gset Node)) : Prop :=
  match cs with
  | [] => True
  | c :: cs' => c ## ⋃ cs' ∧ disjoint_list cs'
  end.

(* No edge of [G] leaves [S]. *)
Definition closed (G : Graph Node) (S : gset Node) : Prop :=
  ∀ u v, u ∈ S → v ∈ nx_adj G u → v ∈ S.

End NetFUSES.

(** ** [convert_graph] (both modules)

    The function copies the edges of a graph, by default the collapsed
    multigraph, into a graph of another type, by default a DiGraph. *)

Section convert.
Context `{Countable Node}.

(* Iteration order of the keys of a dict of component ids. *)
Variable dict_order : gset nat → list nat.

(* the keys of G.adj[n] in a multigraph *)
Definition mg_adj (G : @MultiGraph Node _ _) (n : nat) : gset nat :=
  list_to_set
    (e ← mg_edges G;
     (if decide (e.1 = n) then [e.2] else [])
     ++ (if decide (e.2 = n) then [e.1] else [])).

(* networkx 1.11, MultiGraph.edges(): the adjacency is walked node by node,
   and an edge is reported at the first of its ends that is met, once for
   each of its keys:
     for n, nbrs in self.adj.items():
         for nbr, keydict in nbrs.items():
             if nbr not in seen:
                 for key in keydict: yield (n, nbr)
         seen[n] = 1 *)
Fixpoint mg_edges_from (G : @MultiGraph Node _ _) (nodes : list nat)
    (seen : gset nat) : list (nat * nat) :=
  match nodes with
  | [] => []
  | n :: nodes' =>
      (nbr ← dict_order (mg_adj G n);
       if decide (nbr ∈ seen) then []
       else replicate (mg_number_of_edges G n nbr) (n, nbr))
      ++ mg_edges_from G nodes' (seen ∪ {[n]})
  end.

Definition mg_edges_list (G : @MultiGraph Node _ _) : list (nat * nat) :=
  mg_edges_from G (dict_order (mg_nodes G)) ∅.

(* networkx 1.11, DiGraph.add_edge: a DiGraph is its dict succ, kept here
   in the type of an adjacency; both ends become nodes, and v a successor
   of u. *)
Definition di_add_edge (u v : nat) (D : Graph nat) : Graph nat :=
  let D1 := nx_add_node v (nx_add_node u D) in
  <[u := nx_adj D1 u ∪ {[v]}]> D1.

Definition di_add_edges_from (es : list (nat * nat)) (D : Graph nat)
    : Graph nat :=
  foldl (λ D e, di_add_edge e.1 e.2 D) D es.

(* Gprime.add_edges_from(G.edges()); return Gprime.  [Gprime] is the state
   of the graph to populate, which is the one DiGraph of the default
   Gprime=nx.DiGraph() when the argument is left out. *)
Definition convert_graph (G : @MultiGraph Node _ _) (Gprime : Graph nat)
    : Graph nat :=
  di_add_edges_from (mg_edges_list G) Gprime.

(* What the methods of nx.MultiGraph maintain: the ends of an edge are
   nodes. *)
Definition mg_wf (G : @MultiGraph Node _ _) : Prop :=
  ∀ e, e ∈ mg_edges G → e.1 ∈ mg_nodes G ∧ e.2 ∈ mg_nodes G.

End convert.

(** ** More notions used to state the properties *)

Section more_notions.
Context `{Countable Node}.

(* A chain of edges of [G] leads from [u] to [v]. *)
Definition connected (G : Graph Node) : relation Node :=
  rtc (nx_has_edge G).

(* A source graph that is undirected lists every edge at both ends. *)
Definition symmetric (g : Graph Node) : Prop :=
  ∀ u v, v ∈ nx_adj g u → u ∈ nx_adj g v.

End more_notions.

(** ** Sample inputs

    Nodes are strings, thresholds are integers, no keyword argument is
    passed, and sets are iterated in the order of [elements]. *)

(* two source graphs of one undirected edge each *)
Definition g_ab : Graph string := nx_add_edge "a" "b" ∅.
Definition g_cd : Graph string := nx_add_edge "c" "d" ∅.

(* a graph with the single node x *)
Definition g_x : Graph string := nx_add_node "x" ∅.

(* a DiGraph with the single arc from a to c: c is a successor of a, and a
   is not a successor of c *)
Definition g_arc : Graph string := <["a" := {["c"]}]> (<["c" := ∅]> ∅).

Definition all_str : string → bool := λ _, true.

(* every candidate is an analog *)
Definition oracle_all : @Oracle string _ _ Z unit :=
  λ u V t kwargs, Ok (elements V).

(* b is the analog of a, and d the analog of c *)
Definition oracle_pairs : @Oracle string _ _ Z unit :=
  λ u V t kwargs,
    if decide (u = "a") then Ok ["b"]
    else if decide (u = "c") then Ok ["d"]
    else Ok [].

Definition sample_sim : string → string → Z := λ u v, 1%Z.

Definition graph_of (r : list (@Out Z) * result (Graph string))
    : Graph string :=
  match r.2 with
  | Ok G => G
  | Raise _ => ∅
  end.

Definition fused_ab : Graph string :=
  graph_of (fuse elements 0%Z oracle_all [g_ab] None ()).

Definition fused_pairs : Graph string :=
  graph_of (fuse elements 0%Z oracle_pairs [g_ab; g_cd] None ()).

Definition maps_of
    (r : @MultiGraph string _ _
         * result (gmap nat (gset string) * gmap string nat))
    : gmap nat (gset string) * gmap string nat :=
  match r.2 with
  | Ok m => m
  | Raise _ => (∅, ∅)
  end.

(* nx.MultiGraph() *)
Definition fresh : @MultiGraph string _ _ := mg_empty.

Definition sample_self : gmap string (@Attr string Z) :=
  NetworkFuser_init sample_sim 0%Z.

Definition class_graph_of (r : result (Graph (string + bool)))
    : Graph (string + bool) :=
  match r with
  | Ok G => G
  | Raise _ => ∅
  end.

Definition class_fused_x : Graph (string + bool) :=
  class_graph_of (NetworkFuser_fuse elements Z.gtb sample_self [g_x] None).

(* one fused component, one source edge inside it *)
Definition collapse_ab :=
  collapse_fused_graph elements all_str fused_ab [PyGraph g_ab] fresh.

(* two fused components, an edge inside each, and an arc from the second
   component to the first *)
Definition collapse_pairs :=
  collapse_fused_graph elements all_str fused_pairs
    (PyGraph <$> [g_ab; g_cd; g_arc]) fresh.

(* the same call twice, both times without the argument [collapsed] *)
Definition first_call :=
  collapse_fused_graph_default elements all_str fresh fused_ab [PyGraph g_ab].
Definition second_call :=
  collapse_fused_graph_default elements all_str first_call.1 fused_ab
    [PyGraph g_ab].

(* an undirected edge between the two components of fused_pairs *)
Definition g_ac : Graph string := nx_add_edge "a" "c" ∅.

(* an oracle that fails at b *)
Definition oracle_fails : @Oracle string _ _ Z unit :=
  λ u V t kwargs,
    if decide (u = "b") then Raise (OracleError "no vector") else Ok [].

(* two fused components, an undirected source edge inside each *)
Definition collapse_sym :=
  collapse_fused_graph elements all_str fused_pairs
    (PyGraph <$> [g_ab; g_cd]) fresh.

(* a source edge from one fused component to the other *)
Definition collapse_across :=
  collapse_fused_graph elements all_str fused_pairs
    (PyGraph <$> [g_ab; g_ac]) fresh.

(* the method on the same arguments as collapse_sym *)
Definition method_sym :=
  NetworkFuser_collapse elements all_str fused_pairs
    (PyGraph <$> [g_ab; g_cd]) fresh.

Definition mapping_of
    (r : @MultiGraph string _ _ * result (gmap string nat))
    : gmap string nat :=
  match r.2 with
  | Ok m => m
  | Raise _ => ∅
  end.

(* no node has an analog *)
Definition oracle_none : @Oracle string _ _ Z unit :=
  λ u V t kwargs, Ok [].

(* the fused graph of the single edge a-b when nothing is fused: a and b
   are components of their own *)
Definition fused_none : Graph string :=
  graph_of (fuse elements 0%Z oracle_none [g_ab] None ()).

(* the collapse of that fused graph over its source graph *)
Definition collapse_none :=
  collapse_fused_graph elements all_str fused_none [PyGraph g_ab] fresh.
Definition method_none :=
  NetworkFuser_collapse elements all_str fused_none [PyGraph g_ab] fresh.

(** * Facts about networkx graphs *)

Section networkx_graph_facts.
Context `{Countable K}.
Implicit Types (G : Graph K) (u v n x : K).

Lemma nx_adj_add_node n G x : nx_adj (nx_add_node n G) x = nx_adj G x.
Proof.
  unfold nx_add_node, nx_adj. destruct (G !! n) eqn:E; [done|].
  destruct (decide (n = x)) as [->|Hne].
  - by rewrite lookup_insert_eq, E.
  - by rewrite lookup_insert_ne.
Qed.

Lemma dom_nx_add_node n G : dom (nx_add_node n G) = {[n]} ∪ dom G.
Proof.
  unfold nx_add_node. destruct (G !! n) eqn:E.
  - apply elem_of_dom_2 in E. set_solver.
  - by rewrite dom_insert_L.
Qed.

Lemma nx_adj_add_edge a b G x :
  nx_adj (nx_add_edge a b G) x
  = nx_adj G x ∪ (if decide (x = a) then {[b]} else ∅)
               ∪ (if decide (x = b) then {[a]} else ∅).
Proof.
  unfold nx_add_edge. cbn zeta.
  set (G1 := nx_add_node b (nx_add_node a G)).
  assert (HG1 : ∀ y, nx_adj G1 y = nx_adj G y).
  { intros y. unfold G1. by rewrite !nx_adj_add_node. }
  unfold nx_adj at 1 2.
  destruct (decide (x = b)) as [->|Hb].
  - rewrite lookup_insert_eq. cbn.
    destruct (decide (b = a)) as [->|Ha].
    + rewrite lookup_insert_eq. cbn. rewrite HG1. set_solver.
    + rewrite lookup_insert_ne by done. fold (nx_adj G1 b). rewrite HG1. set_solver.
  - rewrite lookup_insert_ne by done.
    destruct (decide (x = a)) as [->|Ha].
    + rewrite lookup_insert_eq. cbn. rewrite HG1. set_solver.
    + rewrite lookup_insert_ne by done. fold (nx_adj G1 x). rewrite HG1. set_solver.
Qed.

Lemma dom_nx_add_edge a b G : dom (nx_add_edge a b G) = {[a; b]} ∪ dom G.
Proof.
  unfold nx_add_edge. cbn zeta. rewrite !dom_insert_L, !dom_nx_add_node. set_solver.
Qed.

Lemma nx_add_edges_from_cons a b es G :
  nx_add_edges_from ((a, b) :: es) G = nx_add_edges_from es (nx_add_edge a b G).
Proof. done. Qed.

Lemma nx_add_nodes_from_cons n ns G :
  nx_add_nodes_from (n :: ns) G = nx_add_nodes_from ns (nx_add_node n G).
Proof. done. Qed.

Lemma elem_of_nx_adj_add_edges_from es G u v :
  v ∈ nx_adj (nx_add_edges_from es G) u
  ↔ v ∈ nx_adj G u ∨ (u, v) ∈ es ∨ (v, u) ∈ es.
Proof.
  revert G. induction es as [|[a b] es IH]; intros G.
  - cbn. set_solver.
  - rewrite nx_add_edges_from_cons, IH, nx_adj_add_edge, !elem_of_cons.
    repeat case_decide; set_solver.
Qed.

Lemma elem_of_dom_nx_add_edges_from es G x :
  x ∈ dom (nx_add_edges_from es G)
  ↔ x ∈ dom G ∨ ∃ e, e ∈ es ∧ (x = e.1 ∨ x = e.2).
Proof.
  revert G. induction es as [|[a b] es IH]; intros G.
  - cbn. set_solver.
  - rewrite nx_add_edges_from_cons, IH, dom_nx_add_edge. split.
    + intros [Hx|(e & He & Hx)].
      * apply elem_of_union in Hx as [Hx|Hx]; [|by left].
        right. exists (a, b). split; [left|]. set_solver.
      * right. exists e. split; [by right|done].
    + intros [Hx|(e & He & Hx)]; [set_solver|].
      apply elem_of_cons in He as [->|He]; [left; set_solver|].
      right. by exists e.
Qed.

Lemma elem_of_dom_nx_add_nodes_from ns G x :
  x ∈ dom (nx_add_nodes_from ns G) ↔ x ∈ dom G ∨ x ∈ ns.
Proof.
  revert G. induction ns as [|n ns IH]; intros G.
  - cbn. set_solver.
  - rewrite nx_add_nodes_from_cons, IH, dom_nx_add_node. set_solver.
Qed.

Lemma nx_adj_add_nodes_from ns G x :
  nx_adj (nx_add_nodes_from ns G) x = nx_adj G x.
Proof.
  revert G. induction ns as [|n ns IH]; intros G; [done|].
  by rewrite nx_add_nodes_from_cons, IH, nx_adj_add_node.
Qed.

Lemma nx_adj_empty x : nx_adj (∅ : Graph K) x = ∅.
Proof. unfold nx_adj. by rewrite lookup_empty. Qed.

Lemma graph_wf_empty : graph_wf (∅ : Graph K).
Proof. intros u v. rewrite nx_adj_empty. set_solver. Qed.

Lemma graph_wf_add_node n G : graph_wf G → graph_wf (nx_add_node n G).
Proof.
  intros Hwf u v. rewrite !nx_adj_add_node, dom_nx_add_node.
  intros Hv. destruct (Hwf u v Hv). set_solver.
Qed.

Lemma graph_wf_add_edge a b G : graph_wf G → graph_wf (nx_add_edge a b G).
Proof.
  intros Hwf u v. rewrite !nx_adj_add_edge, dom_nx_add_edge.
  intros Hv. 
  repeat case_decide; subst; set_unfold; 
  try (destruct Hv as [[Hv|Hv]|Hv]); try destruct (Hwf u v Hv); try destruct (Hwf _ _ Hv); naive_solver.
Qed.

Lemma graph_wf_add_nodes_from ns G :
  graph_wf G → graph_wf (nx_add_nodes_from ns G).
Proof.
  revert G. induction ns as [|n ns IH]; intros G HG; [done|].
  rewrite nx_add_nodes_from_cons. by apply IH, graph_wf_add_node.
Qed.

Lemma graph_wf_add_edges_from es G :
  graph_wf G → graph_wf (nx_add_edges_from es G).
Proof.
  revert G. induction es as [|[a b] es IH]; intros G HG; [done|].
  rewrite nx_add_edges_from_cons. by apply IH, graph_wf_add_edge.
Qed.

End networkx_graph_facts.

(** * Facts about NetFUSES *)

Section NetFUSES_basic_facts.
Context `{Countable Node}.
Context {Threshold Kwargs : Type}.
Implicit Types (simfn : @Oracle Node _ _ Threshold Kwargs).
Implicit Types (G : Graph Node) (V : gset Node) (u v : Node).
Implicit Types (sim : Node → Node → Threshold) (thr : Threshold).

(** ** [fuse] *)

Lemma elem_of_scan_edges u (analogs : list Node) (x y : Node) :
  (x, y) ∈ (λ a, (u, a)) <$> analogs ↔ x = u ∧ y ∈ analogs.
Proof.
  rewrite list_elem_of_fmap. split.
  - intros (a & [= -> ->] & Ha). done.
  - intros [-> Hy]. by exists y.
Qed.

Lemma elem_of_self_loops (us : list Node) (x y : Node) :
  (x, y) ∈ (λ u, (u, u)) <$> us ↔ x = y ∧ x ∈ us.
Proof.
  rewrite list_elem_of_fmap. split.
  - intros (a & [= -> ->] & Ha). done.
  - intros [-> Hy]. by exists y.
Qed.

Lemma fuse_loop_adj t simfn kwargs verbose V i us G out out' G' :
  fuse_loop t simfn kwargs verbose V i us G out = (out', Ok G') →
  ∀ u v, v ∈ nx_adj G' u ↔
    v ∈ nx_adj G u ∨ (u ∈ us ∧ reports simfn V t kwargs u v)
                   ∨ (v ∈ us ∧ reports simfn V t kwargs v u).
Proof.
  revert i G out. induction us as [|w us IH]; intros i G out Hloop u v.
  - cbn in Hloop. injection Hloop as _ <-. set_solver.
  - cbn in Hloop.
    destruct (progress verbose i (size V) t) as [line|e]; [|done].
    destruct (simfn w (V ∖ {[w]}) t kwargs) as [analogs|e] eqn:Hsim; [|done].
    rewrite (IH _ _ _ Hloop), elem_of_nx_adj_add_edges_from.
    rewrite !elem_of_scan_edges, !elem_of_cons.
    assert (Hw : ∀ y, reports simfn V t kwargs w y ↔ y ∈ analogs).
    { intros y. unfold reports. rewrite Hsim. split.
      - by intros (a & [= <-] & ?).
      - intros Hy. by exists analogs. }
    split.
    + intros [[?|[[-> ?]|[-> ?]]]|[[? ?]|[? ?]]].
      * by left.
      * right. left. split; [by left|by apply Hw].
      * right. right. split; [by left|by apply Hw].
      * right. left. split; [by right|done].
      * right. right. split; [by right|done].
    + intros [?|[[[->|?] Hr]|[[->|?] Hr]]].
      * by left; left.
      * left. right. left. split; [done|by apply Hw].
      * right. by left.
      * left. right. right. split; [done|by apply Hw].
      * right. by right.
Qed.

Lemma fuse_loop_dom t simfn kwargs verbose V i us G out out' G' :
  fuse_loop t simfn kwargs verbose V i us G out = (out', Ok G') →
  ∀ x, x ∈ dom G' ↔
    x ∈ dom G ∨ ∃ u v, u ∈ us ∧ reports simfn V t kwargs u v ∧ (x = u ∨ x = v).
Proof.
  revert i G out. induction us as [|w us IH]; intros i G out Hloop x.
  - cbn in Hloop. injection Hloop as _ <-. set_solver.
  - cbn in Hloop.
    destruct (progress verbose i (size V) t) as [line|e]; [|done].
    destruct (simfn w (V ∖ {[w]}) t kwargs) as [analogs|e] eqn:Hsim; [|done].
    rewrite (IH _ _ _ Hloop), elem_of_dom_nx_add_edges_from. split.
    + intros [[?|([a b] & He & Hx)]|(u & v & Hu & Hr & Hx)]; [by left| |].
      * apply elem_of_scan_edges in He as [-> Hb]. right. exists w, b.
        split; [left|]. split; [by exists analogs|done].
      * right. exists u, v. split; [by right|done].
    + intros [?|(u & v & Hu & Hr & Hx)]; [by left; left|].
      apply elem_of_cons in Hu as [->|Hu]; [|right; eauto 10].
      left. right. destruct Hr as (a' & Ha' & ?).
      rewrite Hsim in Ha'. injection Ha' as <-.
      exists (w, v). split; [by apply elem_of_scan_edges|done].
Qed.

(* The call returns whenever the progress test does not divide by zero and
   the oracle does not raise. *)
Lemma fuse_loop_returns t simfn kwargs verbose V i us G out :
  verbose ≠ Some 0%Z →
  (∀ u, u ∈ us → is_ok (simfn u (V ∖ {[u]}) t kwargs) = true) →
  ∃ out' G', fuse_loop t simfn kwargs verbose V i us G out = (out', Ok G').
Proof.
  intros Hv. revert i G out. induction us as [|w us IH]; intros i G out Hsim.
  - cbn. eauto.
  - cbn. assert (∃ line, progress verbose i (size V) t = Ok line) as [line ->].
    { unfold progress. destruct verbose as [k|]; [|by eauto].
      destruct (decide (k = 0%Z)) as [->|]; [done|]. case_decide; eauto. }
    specialize (Hsim w) as Hw. rewrite elem_of_cons in Hw.
    destruct (simfn w (V ∖ {[w]}) t kwargs) as [analogs|e]; [|by specialize (Hw (or_introl eq_refl))].
    apply IH. intros u Hu. apply Hsim. by right.
Qed.

(* Away from [verbose = 0], the progress test changes what is printed and
   nothing else. *)
Lemma fuse_loop_verbose t simfn kwargs verbose V i us G out1 out2 :
  verbose ≠ Some 0%Z →
  (fuse_loop t simfn kwargs verbose V i us G out1).2
  = (fuse_loop t simfn kwargs None V i us G out2).2.
Proof.
  intros Hv. revert i G out1 out2.
  induction us as [|w us IH]; intros i G out1 out2; [done|].
  cbn. assert (∃ line, progress verbose i (size V) t = Ok line) as [line ->].
  { unfold progress. destruct verbose as [k|]; [|by eauto].
    destruct (decide (k = 0%Z)) as [->|]; [done|]. case_decide; eauto. }
  destruct (simfn w (V ∖ {[w]}) t kwargs) as [analogs|e]; [|done].
  apply IH.
Qed.

Lemma vertex_union_nil : vertex_union ([] : list (Graph Node)) = ∅.
Proof. done. Qed.

(* The fused graph is a well-formed undirected graph. *)
Lemma fuse_loop_wf t simfn kwargs verbose V i us G out out' G' :
  graph_wf G →
  fuse_loop t simfn kwargs verbose V i us G out = (out', Ok G') →
  graph_wf G'.
Proof.
  revert i G out. induction us as [|w us IH]; intros i G out Hwf Hloop.
  - cbn in Hloop. by injection Hloop as _ <-.
  - cbn in Hloop.
    destruct (progress verbose i (size V) t) as [line|e]; [|done].
    destruct (simfn w (V ∖ {[w]}) t kwargs) as [analogs|e]; [|done].
    eapply IH; [|done]. by apply graph_wf_add_edges_from.
Qed.

(** ** [NetworkFuser.fuse] *)

Lemma NetworkFuser_progress_init sim thr verbose i :
  NetworkFuser_progress (NetworkFuser_init sim thr) verbose i
  = match verbose with
    | None => Ok ()
    | Some k =>
        if decide (k = 0%Z) then Raise ZeroDivisionError
        else if decide ((Z.of_nat i `mod` k)%Z = 0%Z) then Raise ValueError
        else Ok ()
    end.
Proof. destruct verbose as [k|]; [|done]. unfold NetworkFuser_progress. repeat case_decide; done. Qed.

Lemma one_mod_zero (k : Z) :
  k ≠ 0%Z → (1 `mod` k = 0)%Z ↔ k = 1%Z ∨ k = (-1)%Z.
Proof.
  intros Hk. rewrite Z.mod_divide by done. split.
  - intros Hd. by apply Z.divide_1_r in Hd.
  - intros [-> | ->]; [exists 1%Z | exists (-1)%Z]; done.
Qed.

(** ** Connected components *)

Lemma elem_of_neighbours_of G X v :
  v ∈ neighbours_of G X ↔ ∃ u, u ∈ X ∧ v ∈ nx_adj G u.
Proof.
  unfold neighbours_of. rewrite elem_of_union_list. split.
  - intros (Y & HY & Hv). apply list_elem_of_fmap in HY as (u & -> & Hu).
    apply elem_of_elements in Hu. eauto.
  - intros (u & Hu & Hv). exists (nx_adj G u). split; [|done].
    apply list_elem_of_fmap. exists u. split; [done|]. by apply elem_of_elements.
Qed.

Lemma neighbours_of_dom G X : graph_wf G → neighbours_of G X ⊆ dom G.
Proof.
  intros Hwf v (u & _ & Hv)%elem_of_neighbours_of. by destruct (Hwf u v Hv).
Qed.

Lemma neighbours_of_empty G : neighbours_of G ∅ = ∅.
Proof. unfold neighbours_of. by rewrite elements_empty. Qed.

Lemma plain_bfs_loop_mono fuel G seen next :
  seen ⊆ plain_bfs_loop fuel G seen next.
Proof.
  revert seen next. induction fuel as [|fuel IH]; intros seen next; cbn; [done|].
  case_decide; [done|]. etrans; [|apply IH]. set_solver.
Qed.

Lemma plain_bfs_loop_dom fuel G seen next :
  graph_wf G → seen ⊆ dom G → next ⊆ dom G →
  plain_bfs_loop fuel G seen next ⊆ dom G.
Proof.
  intros Hwf. revert seen next.
  induction fuel as [|fuel IH]; intros seen next Hs Hn; cbn; [done|].
  case_decide; [done|]. apply IH; [set_solver|by apply neighbours_of_dom].
Qed.

(* With fuel for every node that is not yet seen, the loop stops on an
   empty level, and what it has seen is then closed. *)
Lemma plain_bfs_loop_closed fuel G seen next :
  graph_wf G → seen ⊆ dom G → next ⊆ dom G →
  (∀ u v, u ∈ seen → v ∈ nx_adj G u → v ∈ seen ∪ next) →
  next = ∅ ∨ size (dom G ∖ seen) + 2 ≤ fuel ∨ (next ∖ seen = ∅ ∧ 1 ≤ fuel) →
  closed G (plain_bfs_loop fuel G seen next).
Proof.
  intros Hwf. revert seen next.
  induction fuel as [|fuel IH]; intros seen next Hs Hn Hinv Hfuel.
  - cbn. destruct Hfuel as [->|[?|[_ ?]]]; [|lia..].
    intros u v Hu Hv. specialize (Hinv u v Hu Hv). set_solver.
  - cbn. case_decide as Hne.
    { subst next. intros u v Hu Hv. specialize (Hinv u v Hu Hv). set_solver. }
    apply IH.
    + set_solver.
    + by apply neighbours_of_dom.
    + intros u v Hu Hv. apply elem_of_union in Hu as [Hu|Hu].
      * specialize (Hinv u v Hu Hv).
        destruct (decide (v ∈ seen)); set_solver.
      * apply elem_of_union_r, elem_of_neighbours_of. eauto.
    + destruct (decide (next ∖ seen = ∅)) as [Hfresh|Hfresh].
      { left. by rewrite Hfresh, neighbours_of_empty. }
      right. left. destruct Hfuel as [?|[Hfuel|[? _]]]; [done| |done].
      assert (dom G ∖ (seen ∪ next ∖ seen) ⊂ dom G ∖ seen) as Hlt%subset_size.
      { apply set_choose_L in Hfresh as [x Hx]. split; [set_solver|].
        intros Hsub. specialize (Hsub x). set_solver. }
      lia.
Qed.

Lemma plain_bfs_loop_avoid fuel G seen next S :
  graph_wf G → closed G S → seen ## S → next ## S →
  plain_bfs_loop fuel G seen next ## S.
Proof.
  intros Hwf HS. revert seen next.
  induction fuel as [|fuel IH]; intros seen next Hs Hn; cbn; [done|].
  case_decide; [done|]. apply IH; [set_solver|].
  intros v (u & Hu & Hv)%elem_of_neighbours_of HvS.
  destruct (Hwf u v Hv) as [_ Hsym]. specialize (HS v u HvS Hsym). set_solver.
Qed.

Lemma plain_bfs_source G source : source ∈ plain_bfs G source.
Proof.
  unfold plain_bfs. replace (size (dom G) + 2) with (S (S (size (dom G)))) by lia.
  change (plain_bfs_loop (S ?f) G ∅ {[source]})
    with (if decide ({[source]} = (∅ : gset Node)) then ∅
          else plain_bfs_loop f G (∅ ∪ {[source]} ∖ ∅)
                 (neighbours_of G ({[source]} ∖ ∅))).
  rewrite decide_False by set_solver.
  apply plain_bfs_loop_mono. set_solver.
Qed.

Lemma plain_bfs_dom G source :
  graph_wf G → source ∈ dom G → plain_bfs G source ⊆ dom G.
Proof.
  intros Hwf Hs. apply plain_bfs_loop_dom; [done|set_solver..].
Qed.

Lemma plain_bfs_closed G source :
  graph_wf G → source ∈ dom G → closed G (plain_bfs G source).
Proof.
  intros Hwf Hs. apply plain_bfs_loop_closed; [done|set_solver..| |].
  - set_solver.
  - right. left. by rewrite difference_empty_L.
Qed.

Lemma plain_bfs_avoid G source S :
  graph_wf G → closed G S → source ∉ S → plain_bfs G source ## S.
Proof.
  intros Hwf HS Hs. apply plain_bfs_loop_avoid; [done..|set_solver|set_solver].
Qed.

Lemma closed_union G S T : closed G S → closed G T → closed G (S ∪ T).
Proof. intros HS HT u v [Hu|Hu]%elem_of_union Hv; set_solver. Qed.

Lemma closed_empty G : closed G ∅.
Proof. intros u v Hu. set_solver. Qed.

Lemma disjoint_list_snoc (cs : list (gset Node)) c :
  disjoint_list (cs ++ [c]) ↔ disjoint_list cs ∧ c ## ⋃ cs.
Proof.
  induction cs as [|d cs IH]; cbn.
  - set_solver.
  - rewrite IH, union_list_app_L. cbn. set_solver.
Qed.

Lemma union_list_perm (cs ds : list (gset Node)) : cs ≡ₚ ds → ⋃ cs = ⋃ ds.
Proof. intros Hp. apply leibniz_equiv. by rewrite Hp. Qed.

Lemma disjoint_list_perm (cs ds : list (gset Node)) :
  cs ≡ₚ ds → disjoint_list cs → disjoint_list ds.
Proof.
  induction 1 as [|c cs ds Hp IH|c d cs|cs ds es _ IH1 _ IH2]; cbn.
  - done.
  - intros [Hc Hcs]. split; [|by apply IH].
    apply union_list_perm in Hp. by rewrite <- Hp.
  - set_solver.
  - auto.
Qed.

Lemma disjoint_list_lookup (cs : list (gset Node)) i j c d u :
  disjoint_list cs → cs !! i = Some c → cs !! j = Some d →
  u ∈ c → u ∈ d → i = j.
Proof.
  revert i j. induction cs as [|e cs IH]; intros i j Hdis Hi Hj Hc Hd; [done|].
  destruct Hdis as [He Hcs].
  destruct i as [|i], j as [|j]; cbn in *; simplify_eq; [done| | |].
  - exfalso. apply (He u Hc), elem_of_union_list. exists d.
    split; [|done]. by eapply list_elem_of_lookup_2.
  - exfalso. apply (He u Hd), elem_of_union_list. exists c.
    split; [|done]. by eapply list_elem_of_lookup_2.
  - f_equal. by eapply IH.
Qed.

Lemma disjoint_list_size (cs : list (gset Node)) :
  disjoint_list cs → sum_list (size <$> cs) = size (⋃ cs).
Proof.
  induction cs as [|c cs IH]; cbn; [by rewrite size_empty|].
  intros [Hc Hcs]. rewrite size_union by done. by rewrite IH.
Qed.

(* What [connected_components] keeps true from one node to the next. *)
Lemma components_step_inv G st v :
  graph_wf G → v ∈ dom G →
  st.1 = ⋃ st.2 → st.1 ⊆ dom G → closed G st.1 → disjoint_list st.2 →
  let st' := components_step G st v in
  st'.1 = ⋃ st'.2 ∧ st'.1 ⊆ dom G ∧ closed G st'.1 ∧ disjoint_list st'.2
  ∧ st.1 ⊆ st'.1 ∧ v ∈ st'.1.
Proof.
  intros Hwf Hv Hu Hd Hc Hdis. unfold components_step. cbn zeta.
  case_decide as Hseen; [done|]. cbn.
  split_and!.
  - rewrite union_list_app_L, Hu. cbn. set_solver.
  - pose proof (plain_bfs_dom G v Hwf Hv). set_solver.
  - apply closed_union; [done|by apply plain_bfs_closed].
  - apply disjoint_list_snoc. split; [done|]. rewrite <- Hu.
    by apply plain_bfs_avoid.
  - set_solver.
  - pose proof (plain_bfs_source G v). set_solver.
Qed.

Lemma components_fold_inv G vs st :
  graph_wf G → (∀ v, v ∈ vs → v ∈ dom G) →
  st.1 = ⋃ st.2 → st.1 ⊆ dom G → closed G st.1 → disjoint_list st.2 →
  let st' := foldl (components_step G) st vs in
  st'.1 = ⋃ st'.2 ∧ st'.1 ⊆ dom G ∧ disjoint_list st'.2
  ∧ st.1 ⊆ st'.1 ∧ ∀ v, v ∈ vs → v ∈ st'.1.
Proof.
  intros Hwf. revert st.
  induction vs as [|w vs IH]; intros st Hvs Hu Hd Hc Hdis; cbn zeta.
  - cbn. split_and!; [done..|]. intros v Hv. by apply elem_of_nil in Hv.
  - cbn [foldl].
    destruct (components_step_inv G st w Hwf) as (Hu' & Hd' & Hc' & Hdis' & Hmono & Hw);
      [apply Hvs; by left|done..|].
    destruct (IH (components_step G st w)) as (? & ? & ? & Hmono' & Hall);
      [intros v Hv; apply Hvs; by right|done..|].
    split_and!; [done..|set_solver|].
    intros v [->|Hv]%elem_of_cons; [by apply Hmono'|by apply Hall].
Qed.

Lemma insert_by_len_perm c (cs : list (gset Node)) :
  insert_by_len c cs ≡ₚ c :: cs.
Proof.
  induction cs as [|d cs IH]; cbn; [done|]. case_decide; [done|].
  rewrite IH. apply perm_swap.
Qed.

Lemma sorted_by_len_perm (cs : list (gset Node)) : sorted_by_len cs ≡ₚ cs.
Proof.
  induction cs as [|c cs IH]; cbn; [done|].
  by rewrite insert_by_len_perm, IH.
Qed.

(** ** The edges added to [collapsed] *)

Lemma add_mapped_edges_ok i (n2 : gmap Node nat) nl col col' :
  add_mapped_edges i n2 nl col = (col', Ok ()) →
  (∀ v, v ∈ nl → is_Some (n2 !! v)) ∧
  ∀ a b,
    length (filter (.= (a, b)) (mg_edges col'))
    = length (filter (.= (a, b)) (mg_edges col))
      + if decide (a = i) then length (filter (λ v, n2 !! v = Some b) nl)
        else 0.
Proof.
  revert col. induction nl as [|v nl IH]; intros col Hadd.
  - cbn in Hadd. injection Hadd as <-. split; [by intros v ?%elem_of_nil|].
    intros a b. cbn. case_decide; lia.
  - cbn in Hadd. destruct (n2 !! v) as [j|] eqn:Hv; [|done].
    destruct (IH _ Hadd) as [Hall Hcount]. split.
    + intros w [->|Hw]%elem_of_cons; [by rewrite Hv|by apply Hall].
    + intros a b. rewrite Hcount. cbn [mg_add_edge mg_edges].
      rewrite filter_app, length_app, (filter_cons _ v nl), Hv.
      rewrite (filter_cons _ (i, j) []), filter_nil.
      destruct (decide (a = i)) as [->|Hai].
      * destruct (decide (j = b)) as [->|Hjb].
        -- rewrite !decide_True by done. cbn. lia.
        -- rewrite !decide_False by congruence. cbn. lia.
      * rewrite decide_False by congruence. cbn. lia.
Qed.

Lemma mg_add_edges_from_replicate n i (col : @MultiGraph Node _ _) :
  mg_edges (mg_add_edges_from (replicate n (i, i)) col)
  = mg_edges col ++ replicate n (i, i).
Proof.
  revert col. induction n as [|n IH]; intros col; cbn.
  - by rewrite app_nil_r.
  - unfold mg_add_edges_from in IH. rewrite IH. cbn.
    by rewrite <- app_assoc.
Qed.

Lemma length_filter_replicate n (e e' : nat * nat) :
  length (filter (.= e) (replicate n e')) = if decide (e' = e) then n else 0.
Proof.
  induction n as [|n IH]; cbn [replicate]; [by case_decide|].
  rewrite filter_cons. destruct (decide (e' = e)) as [Heq|Hne].
  - cbn. by rewrite IH.
  - done.
Qed.

(** ** The loop over the components *)

Lemma filter_ext_in {A} (P Q : A → Prop) `{∀ x, Decision (P x)}
    `{∀ x, Decision (Q x)} (l : list A) :
  (∀ x, x ∈ l → P x ↔ Q x) → filter P l = filter Q l.
Proof.
  induction l as [|x l IH]; intros HPQ; [done|].
  rewrite !filter_cons, IH by (intros y Hy; apply HPQ; by right).
  specialize (HPQ x (list_elem_of_here x l)).
  repeat case_decide; naive_solver.
Qed.

(* [node2fuse_id] after the component [c] has been entered. *)
Lemma node2fuse_id_step (pre comps : list (gset Node)) c (n2 : gmap Node nat) :
  disjoint_list (pre ++ c :: comps) →
  (∀ v b, n2 !! v = Some b ↔ ∃ c', pre !! b = Some c' ∧ v ∈ c') →
  ∀ v b, (gset_to_gmap (length pre) c ∪ n2) !! v = Some b
         ↔ ∃ c', (pre ++ [c]) !! b = Some c' ∧ v ∈ c'.
Proof.
  intros Hdis Hn2 v b.
  rewrite lookup_union_Some_raw, lookup_gset_to_gmap_Some, lookup_gset_to_gmap_None.
  split.
  - intros [[Hv <-]|[Hv Hb]].
    + exists c. split; [|done]. by rewrite list_lookup_middle.
    + apply Hn2 in Hb as (c' & Hc' & Hvc'). exists c'.
      split; [by apply lookup_app_l_Some|done].
  - intros (c' & Hc' & Hvc'). apply lookup_app_Some in Hc' as [Hc'|[Hge Hc']].
    + right. split; [|apply Hn2; by eauto].
      intros Hvc. apply lookup_lt_Some in Hc' as Hlt.
      assert (b = length pre); [|lia].
      eapply (disjoint_list_lookup _ b (length pre) c' c v Hdis); [|by apply list_lookup_middle|done..].
      by apply lookup_app_l_Some.
    + left. destruct (b - length pre) as [|k] eqn:Hk; [|by destruct k].
      cbn in Hc'. injection Hc' as <-. split; [done|lia].
Qed.

Lemma mg_number_of_edges_count (M : @MultiGraph Node _ _) (i j : nat) :
  mg_number_of_edges M i j
  = if decide (i = j) then length (filter (.= (i, i)) (mg_edges M))
    else length (filter (.= (i, j)) (mg_edges M))
         + length (filter (.= (j, i)) (mg_edges M)).
Proof.
  unfold mg_number_of_edges. induction (mg_edges M) as [|e es IH].
  - by case_decide.
  - rewrite !filter_cons.
    destruct (decide (i = j)) as [->|Hne].
    + repeat case_decide; cbn; rewrite ?IH; naive_solver.
    + repeat case_decide; cbn; rewrite ?IH; try lia; naive_solver.
Qed.

Lemma total_members_map_seq i (cs : list (gset Node)) :
  total_members (map_seq i cs) = sum_list (size <$> cs).
Proof.
  unfold total_members. revert i. induction cs as [|c cs IH]; intros i.
  - cbn. apply map_fold_empty.
  - rewrite map_seq_cons, map_fold_insert_L.
    + cbn. by rewrite IH.
    + intros. lia.
    + apply lookup_map_seq_None. lia.
Qed.

(** ** Adjacency entries of a single undirected edge *)

Lemma entries_single (g : Graph Node) (c d : gset Node) :
  entries [g] c d = sum_list_with (λ u, size (nx_adj g u ∩ d)) (elements c).
Proof.
  unfold entries. induction (elements c) as [|u us IH]; [done|].
  rewrite bind_cons, sum_list_with_app, IH. cbn. lia.
Qed.

Lemma sum_elements_split (f : Node → nat) (c : gset Node) x :
  x ∈ c →
  sum_list_with f (elements c) = f x + sum_list_with f (elements (c ∖ {[x]})).
Proof.
  intros Hx. rewrite (union_difference_singleton_L x c Hx) at 1.
  rewrite elements_union_singleton by set_solver. done.
Qed.

Lemma sum_elements_zero (f : Node → nat) (c : gset Node) :
  (∀ u, u ∈ c → f u = 0) → sum_list_with f (elements c) = 0.
Proof.
  intros Hf. assert (Hall : ∀ u, u ∈ elements c → f u = 0).
  { intros u Hu. by apply Hf, elem_of_elements. }
  induction (elements c) as [|u us IH]; [done|]. cbn.
  rewrite (Hall u) by left. rewrite IH; [done|]. intros v Hv. apply Hall. by right.
Qed.

Lemma entries_single_edge a b (c : gset Node) :
  a ∈ c → b ∈ c →
  entries [nx_add_edge a b ∅] c c = if decide (a = b) then 1 else 2.
Proof.
  intros Ha Hb. rewrite entries_single.
  assert (Hadj : ∀ u, nx_adj (nx_add_edge a b ∅) u ∩ c
                      = (if decide (u = a) then {[b]} else ∅)
                        ∪ (if decide (u = b) then {[a]} else ∅)).
  { intros u. rewrite nx_adj_add_edge, nx_adj_empty. repeat case_decide; set_solver. }
  rewrite (sum_elements_split _ c a Ha), Hadj.
  assert (Hrest : ∀ c' : gset Node, a ∉ c' → b ∉ c' →
            sum_list_with (λ u, size (nx_adj (nx_add_edge a b ∅) u ∩ c))
              (elements c') = 0).
  { intros c' Ha' Hb'. apply sum_elements_zero. intros u Hu.
    rewrite Hadj. apply size_empty_iff.
    repeat case_decide; set_solver. }
  destruct (decide (a = b)) as [<-|Hne].
  - rewrite Hrest by set_solver. destruct (decide (a = a)); [|done].
    replace ({[a]} ∪ {[a]} : gset Node) with ({[a]} : gset Node) by set_solver.
    by rewrite size_singleton.
  - rewrite (sum_elements_split _ (c ∖ {[a]}) b) by set_solver.
    rewrite Hadj, Hrest by set_solver.
    destruct (decide (a = a)); [|done]. destruct (decide (b = b)); [|done].
    destruct (decide (b = a)); [congruence|].
    replace ({[b]} ∪ ∅ : gset Node) with ({[b]} : gset Node) by set_solver.
    replace (∅ ∪ {[a]} : gset Node) with ({[a]} : gset Node) by set_solver.
    by rewrite !size_singleton.
Qed.

(** ** The graph object [collapsed] and the precondition *)

Lemma add_mapped_edges_prefix i (n2 : gmap Node nat) nl
    (col : @MultiGraph Node _ _) :
  mg_edges col `prefix_of` mg_edges (add_mapped_edges i n2 nl col).1 ∧
  mg_nodes col ⊆ mg_nodes (add_mapped_edges i n2 nl col).1.
Proof.
  revert col. induction nl as [|v nl IH]; intros col; cbn; [done|].
  destruct (n2 !! v) as [j|]; [|done].
  destruct (IH (mg_add_edge i j col)) as [He Hn]. cbn in He, Hn. split.
  - etrans; [|exact He]. by apply prefix_app_r.
  - set_solver.
Qed.

Lemma mg_add_edges_from_nodes es (col : @MultiGraph Node _ _) :
  mg_nodes col ⊆ mg_nodes (mg_add_edges_from es col).
Proof.
  unfold mg_add_edges_from. revert col.
  induction es as [|e es IH]; intros col; cbn; [done|].
  etrans; [|apply IH]. cbn. set_solver.
Qed.

Lemma isinstance_Graph_all graphs :
  forallb (isinstance_Graph (Node := Node)) graphs = true →
  ∃ gs, graphs = PyGraph <$> gs.
Proof.
  induction graphs as [|g graphs IH]; cbn; [by exists []|].
  intros [Hg Hgs]%andb_prop. destruct (IH Hgs) as [gs ->].
  destruct g as [g| |]; [|done..]. by exists (g :: gs).
Qed.

End NetFUSES_basic_facts.

Section NetFUSES_facts.
Context `{Countable Node}.
Context {Threshold Kwargs : Type}.

(* Iteration order of a Python set. *)
Variable set_order : gset Node → list Node.
Implicit Types (simfn : @Oracle Node _ _ Threshold Kwargs).
Implicit Types (G : Graph Node) (V : gset Node) (u v : Node).
Implicit Types (sim : Node → Node → Threshold) (thr : Threshold).

(** ** [fuse] *)

Lemma fuse_ok_inv t simfn graphs verbose kwargs out G :
  fuse set_order t simfn graphs verbose kwargs = (out, Ok G) →
  ∃ out0,
    fuse_loop t simfn kwargs verbose (vertex_union graphs) 1
      (set_order (vertex_union graphs))
      (nx_add_edges_from ((λ u, (u, u)) <$> set_order (vertex_union graphs))
         (nx_add_nodes_from (set_order (vertex_union graphs)) ∅)) []
    = (out0, Ok G).
Proof.
  unfold fuse. cbn zeta.
  destruct (fuse_loop _ _ _ _ _ _ _ _ _) as [out0 [G0|e]]; [|done].
  intros [= _ ->]. by exists out0.
Qed.

Lemma fuse_verbose_observational t simfn graphs verbose kwargs :
  verbose ≠ Some 0%Z →
  (fuse set_order t simfn graphs verbose kwargs).2
  = (fuse set_order t simfn graphs None kwargs).2.
Proof.
  intros Hv. unfold fuse. cbn zeta.
  pose proof (fuse_loop_verbose t simfn kwargs verbose (vertex_union graphs) 1
    (set_order (vertex_union graphs))
    (nx_add_edges_from ((λ u, (u, u)) <$> set_order (vertex_union graphs))
       (nx_add_nodes_from (set_order (vertex_union graphs)) ∅)) [] [] Hv) as Heq.
  destruct (fuse_loop t simfn kwargs verbose _ _ _ _ _) as [o1 [G1|e1]];
    destruct (fuse_loop t simfn kwargs None _ _ _ _ _) as [o2 [G2|e2]];
    cbn in *; congruence.
Qed.

Lemma fuse_graph_wf t simfn graphs verbose kwargs out G :
  fuse set_order t simfn graphs verbose kwargs = (out, Ok G) → graph_wf G.
Proof.
  intros [out0 Hloop]%fuse_ok_inv. eapply fuse_loop_wf; [|done].
  apply graph_wf_add_edges_from, graph_wf_add_nodes_from, graph_wf_empty.
Qed.

Section NetworkFuser_order_facts.
Variable gt : Threshold → Threshold → bool.

(** ** [NetworkFuser.fuse] *)

(* The constructor binds similarity_func; the lookup of similarit_func
   finds nothing. *)
Lemma NetworkFuser_above_threshold_raises sim thr u v :
  NetworkFuser_above_threshold gt (NetworkFuser_init sim thr) u v
  = Raise AttributeError.
Proof. reflexivity. Qed.

Lemma mapM_above_threshold sim thr u vs :
  mapM (NetworkFuser_above_threshold gt (NetworkFuser_init sim thr) u) vs
  = match vs with [] => Ok [] | _ :: _ => Raise AttributeError end.
Proof. destruct vs; reflexivity. Qed.

(* The scan adds nothing: it either raises or finds no candidate. *)
Lemma NetworkFuser_fuse_loop_ok sim thr (verbose : option Z) V (i : nat)
    (us : list Node) (F F' : Graph (Node + bool)) :
  NetworkFuser_fuse_loop set_order gt (NetworkFuser_init sim thr)
    verbose V i us F = Ok F' →
  F' = F.
Proof.
  revert i F. induction us as [|u us IH]; intros i F; cbn -[NetworkFuser_init].
  - by intros [= ->].
  - destruct (NetworkFuser_progress _ verbose i); [|done]. cbn -[NetworkFuser_init].
    rewrite mapM_above_threshold.
    destruct (set_order (V ∖ {[u]})); [|done]. cbn -[NetworkFuser_init].
    apply IH.
Qed.

End NetworkFuser_order_facts.

Section collapse_order_facts.
Variable is_str : Node → bool.

(** ** The loop over the components *)

Lemma collapse_loop_maps graphs (comps pre : list (gset Node)) id2 n2
    (col col' : @MultiGraph Node _ _) id2' n2' :
  disjoint_list (pre ++ comps) →
  (∀ v b, n2 !! v = Some b ↔ ∃ c', pre !! b = Some c' ∧ v ∈ c') →
  collapse_loop set_order is_str graphs (length pre) comps id2 n2 col
  = (col', Ok (id2', n2')) →
  id2' = map_seq (length pre) comps ∪ id2 ∧
  ∀ v b, n2' !! v = Some b ↔ ∃ c', (pre ++ comps) !! b = Some c' ∧ v ∈ c'.
Proof.
  revert pre id2 n2 col.
  induction comps as [|c comps IH]; intros pre id2 n2 col Hdis Hn2 Hloop.
  - cbn in Hloop. injection Hloop as _ <- <-.
    rewrite app_nil_r. split; [|done]. cbn. by rewrite (left_id_L ∅ (∪)).
  - cbn [collapse_loop] in Hloop. unfold update_node2fuse_id in Hloop.
    destruct (forallb is_str (set_order c)); [|done].
    destruct (scan_nodes _ _ _ _ _) as [[sl nl]|]; [|done].
    destruct (add_mapped_edges _ _ _ _) as [col1 [[]|]]; [|done].
    replace (S (length pre)) with (length (pre ++ [c])) in Hloop
      by (rewrite length_app; cbn; lia).
    apply IH in Hloop as [-> Hn2'].
    + split.
      * rewrite map_seq_cons, length_app, Nat.add_1_r.
        rewrite <- insert_union_l. rewrite <- insert_union_r; [done|].
        apply lookup_map_seq_None. lia.
      * by rewrite <- app_assoc in Hn2'.
    + by rewrite <- app_assoc.
    + by eapply node2fuse_id_step.
Qed.

(** ** The graph object [collapsed] and the precondition *)

(* Whatever the call does, it only adds to the graph it was given. *)
Lemma collapse_loop_prefix graphs i (comps : list (gset Node)) id2 n2
    (col : @MultiGraph Node _ _) :
  mg_edges col `prefix_of`
    mg_edges (collapse_loop set_order is_str graphs i comps id2 n2 col).1 ∧
  mg_nodes col ⊆
    mg_nodes (collapse_loop set_order is_str graphs i comps id2 n2 col).1.
Proof.
  revert i id2 n2 col. induction comps as [|c comps IH]; intros i id2 n2 col.
  - done.
  - cbn [collapse_loop].
    destruct (update_node2fuse_id _ _ _ _ _) as [n2'|]; [|done].
    destruct (scan_nodes _ _ _ _ _) as [[sl nl]|]; [|cbn; split; [done|set_solver]].
    pose proof (add_mapped_edges_prefix i n2' nl (mg_add_node i col)) as [He Hn].
    destruct (add_mapped_edges _ _ _ _) as [col1 [[]|]]; cbn in He, Hn;
      [|cbn; split; [done|set_solver]].
    destruct (IH (S i) (<[i:=c]> id2) n2'
      (mg_add_edges_from (replicate (length sl) (i, i)) col1)) as [He' Hn'].
    split.
    + etrans; [exact He|]. etrans; [|exact He'].
      rewrite mg_add_edges_from_replicate. by apply prefix_app_r.
    + etrans; [|exact Hn']. etrans; [|apply mg_add_edges_from_nodes]. set_solver.
Qed.

End collapse_order_facts.

(* The order enumerates the set: every member once. *)
Hypothesis set_order_perm : ∀ X, set_order X ≡ₚ elements X.

Lemma elem_of_set_order X x : x ∈ set_order X ↔ x ∈ X.
Proof. by rewrite set_order_perm, elem_of_elements. Qed.

Lemma NoDup_set_order X : NoDup (set_order X).
Proof. rewrite set_order_perm. apply NoDup_elements. Qed.

Lemma length_set_order X : length (set_order X) = size X.
Proof. by rewrite set_order_perm. Qed.

Lemma set_order_empty : set_order ∅ = [].
Proof.
  apply Permutation_nil_r. by rewrite set_order_perm, elements_empty.
Qed.

Lemma set_order_nonempty X : X ≠ ∅ → ∃ x xs, set_order X = x :: xs.
Proof.
  intros HX. destruct (set_order X) as [|x xs] eqn:E; [|by eauto].
  exfalso. apply HX. apply set_eq. intros y.
  rewrite <- elem_of_set_order, E. set_solver.
Qed.

(** ** [fuse] *)

(* The graph before the scan: the vertex universe with its self-loops. *)
Lemma fuse_init_adj V u v :
  v ∈ nx_adj (nx_add_edges_from ((λ u, (u, u)) <$> set_order V)
               (nx_add_nodes_from (set_order V) ∅)) u
  ↔ u = v ∧ u ∈ V.
Proof.
  rewrite elem_of_nx_adj_add_edges_from, nx_adj_add_nodes_from, nx_adj_empty.
  rewrite !elem_of_self_loops, !elem_of_set_order. set_solver.
Qed.

Lemma fuse_init_dom V x :
  x ∈ dom (nx_add_edges_from ((λ u, (u, u)) <$> set_order V)
             (nx_add_nodes_from (set_order V) (∅ : Graph Node)))
  ↔ x ∈ V.
Proof.
  rewrite elem_of_dom_nx_add_edges_from, elem_of_dom_nx_add_nodes_from.
  rewrite dom_empty_L, elem_of_set_order. split.
  - intros [[?|?]|([a b] & He & Hx)]; [set_solver|done|].
    apply elem_of_self_loops in He as [-> He]. apply elem_of_set_order in He.
    by destruct Hx as [->| ->].
  - intros ?. left. by right.
Qed.

(** C1.  When [fuse] returns, two distinct nodes [u], [v] of the vertex
    universe are joined in the fused graph exactly when the oracle, called
    with [u] as source and the universe without [u] as candidates, returns
    [v], or, called from the side of [v], returns [u]. *)
Theorem fuse_edge_iff_oracle t simfn graphs verbose kwargs out G u v :
  fuse set_order t simfn graphs verbose kwargs = (out, Ok G) →
  u ∈ vertex_union graphs → v ∈ vertex_union graphs → u ≠ v →
  nx_has_edge G u v ↔
    reports simfn (vertex_union graphs) t kwargs u v ∨
    reports simfn (vertex_union graphs) t kwargs v u.
Proof.
  intros Hfuse Hu Hv Hne. apply fuse_ok_inv in Hfuse as [out0 Hloop].
  unfold nx_has_edge. rewrite (fuse_loop_adj _ _ _ _ _ _ _ _ _ _ _ Hloop).
  rewrite fuse_init_adj, !elem_of_set_order. naive_solver.
Qed.

Lemma fuse_returns t simfn graphs verbose kwargs :
  verbose ≠ Some 0%Z →
  (∀ u, u ∈ vertex_union graphs →
     is_ok (simfn u (vertex_union graphs ∖ {[u]}) t kwargs) = true) →
  ∃ out G, fuse set_order t simfn graphs verbose kwargs = (out, Ok G).
Proof.
  intros Hv Hsim. unfold fuse. cbn zeta.
  edestruct (fuse_loop_returns t simfn kwargs verbose (vertex_union graphs) 1
               (set_order (vertex_union graphs))) as (out' & G' & ->); [done| |by eauto].
  intros u Hu. apply Hsim. by apply elem_of_set_order.
Qed.

(** C6.  With [verbose=0], the default, [fuse] divides by zero at the first
    node: on a vertex universe that is not empty the call raises
    ZeroDivisionError and returns no graph. *)
Theorem fuse_verbose_zero_raises t simfn graphs kwargs :
  vertex_union graphs ≠ ∅ →
  fuse set_order t simfn graphs (Some 0%Z) kwargs
  = ([], Raise ZeroDivisionError).
Proof.
  intros HV. unfold fuse. cbn zeta.
  destruct (set_order_nonempty _ HV) as (x & xs & ->). done.
Qed.


Lemma fuse_empty_universe t simfn graphs verbose kwargs :
  vertex_union graphs = ∅ →
  ∃ out, fuse set_order t simfn graphs verbose kwargs = (out, Ok ∅).
Proof.
  intros HV. unfold fuse. cbn zeta. rewrite HV, set_order_empty. cbn. eauto.
Qed.

(** ** Connected components *)

(* The components partition the nodes of the graph. *)
Lemma connected_components_partition G :
  graph_wf G →
  ⋃ nx_connected_component_subgraphs set_order G = dom G ∧
  disjoint_list (nx_connected_component_subgraphs set_order G).
Proof.
  intros Hwf. unfold nx_connected_component_subgraphs.
  destruct (components_fold_inv G (set_order (dom G)) (∅, []) Hwf)
    as (Hu & Hd & Hdis & _ & Hall); cbn.
  - intros v Hv. by apply elem_of_set_order in Hv.
  - done.
  - done.
  - apply closed_empty.
  - done.
  - split; [|done]. rewrite <- Hu. apply set_eq. intros v. split; [by apply Hd|].
    intros Hv. by apply Hall, elem_of_set_order.
Qed.

Lemma conn_comps_partition G :
  graph_wf G →
  ⋃ sorted_by_len (nx_connected_component_subgraphs set_order G) = dom G ∧
  disjoint_list (sorted_by_len (nx_connected_component_subgraphs set_order G)).
Proof.
  intros Hwf. destruct (connected_components_partition G Hwf) as [Hu Hdis].
  split.
  - rewrite <- Hu. apply union_list_perm, sorted_by_len_perm.
  - eapply disjoint_list_perm; [|done]. symmetry. apply sorted_by_len_perm.
Qed.

(** ** The scan of the source graphs *)

Lemma length_filter_set_order X (d : gset Node) :
  length (filter (.∈ d) (set_order X)) = size (X ∩ d).
Proof.
  rewrite set_order_perm. unfold size, set_size. cbn. apply Permutation_length.
  apply NoDup_Permutation.
  - apply NoDup_filter, NoDup_elements.
  - apply NoDup_elements.
  - intros x. rewrite list_elem_of_filter, !elem_of_elements. set_solver.
Qed.

Lemma scan_graphs_graphs (c : gset Node) node gs acc :
  ∃ nl,
    scan_graphs set_order c node (PyGraph <$> gs) acc
    = Ok (acc.1 ++ filter (.∈ c) nl, acc.2 ++ nl) ∧
    ∀ d : gset Node,
      length (filter (.∈ d) nl) = sum_list (g ← gs; [size (nx_adj g node ∩ d)]).
Proof.
  revert acc. induction gs as [|g gs IH]; intros acc.
  - exists []. cbn. rewrite !app_nil_r. by destruct acc.
  - cbn [fmap list_fmap scan_graphs]. case_decide as Hin.
    + destruct (IH (acc.1 ++ filter (.∈ c) (set_order (nx_adj g node)),
                    acc.2 ++ set_order (nx_adj g node))) as (nl & -> & Hlen).
      exists (set_order (nx_adj g node) ++ nl). split.
      * cbn. by rewrite filter_app, !app_assoc.
      * intros d. rewrite filter_app, length_app, Hlen, length_filter_set_order.
        done.
    + destruct (IH acc) as (nl & -> & Hlen). exists nl. split; [done|].
      intros d. rewrite Hlen. cbn.
      apply not_elem_of_dom in Hin. unfold nx_adj. rewrite Hin. cbn.
      replace (∅ ∩ d) with (∅ : gset Node) by set_solver. by rewrite size_empty.
Qed.

Lemma scan_nodes_graphs (c : gset Node) gs nodes acc :
  ∃ nl,
    scan_nodes set_order c (PyGraph <$> gs) nodes acc
    = Ok (acc.1 ++ filter (.∈ c) nl, acc.2 ++ nl) ∧
    ∀ d : gset Node,
      length (filter (.∈ d) nl)
      = sum_list (u ← nodes; g ← gs; [size (nx_adj g u ∩ d)]).
Proof.
  revert acc. induction nodes as [|node nodes IH]; intros acc.
  - exists []. cbn. rewrite !app_nil_r. by destruct acc.
  - cbn [scan_nodes].
    destruct (scan_graphs_graphs c node gs acc) as (nl1 & -> & Hlen1). cbn.
    destruct (IH (acc.1 ++ filter (.∈ c) nl1, acc.2 ++ nl1)) as (nl2 & -> & Hlen2).
    exists (nl1 ++ nl2). split.
    + cbn. by rewrite filter_app, !app_assoc.
    + intros d. rewrite filter_app, length_app, Hlen1, Hlen2.
      by rewrite ?bind_cons, sum_list_with_app.
Qed.

(* The two lists of one component: [neighbors] has one item per adjacency
   entry of the component, [self_loops] one per internal entry. *)
Lemma scan_component (c : gset Node) gs :
  ∃ nl,
    scan_nodes set_order c (PyGraph <$> gs) (set_order c) ([], [])
    = Ok (filter (.∈ c) nl, nl) ∧
    ∀ d : gset Node, length (filter (.∈ d) nl) = entries gs c d.
Proof.
  destruct (scan_nodes_graphs c gs (set_order c) ([], [])) as (nl & Hscan & Hlen).
  exists nl. split; [done|]. intros d. rewrite Hlen. unfold entries.
  by rewrite (set_order_perm c).
Qed.

Section NetworkFuser_facts.
Variable gt : Threshold → Threshold → bool.

(** ** [NetworkFuser.fuse] *)

(** C10, as amended.  On a vertex universe of two nodes or more,
    [NetworkFuser.fuse] always raises: ZeroDivisionError with [verbose=0]
    (the default), ValueError with [verbose] 1 or -1, where the malformed
    format string is used at the first node, and AttributeError otherwise,
    from the read of [self.similarit_func].  A graph the method returns has
    no edge beside self-loops: the scan adds none. *)
Theorem NetworkFuser_fuse_fails sim thr graphs verbose :
  (2 ≤ size (vertex_union graphs) →
   NetworkFuser_fuse set_order gt (NetworkFuser_init sim thr) graphs verbose
   = Raise match verbose with
           | Some 0%Z => ZeroDivisionError
           | Some 1%Z | Some (-1)%Z => ValueError
           | _ => AttributeError
           end) ∧
  (∀ F, NetworkFuser_fuse set_order gt (NetworkFuser_init sim thr)
          graphs verbose = Ok F →
        ∀ x y, nx_has_edge F x y → x = y).
Proof.
  split.
  - intros Hsize. unfold NetworkFuser_fuse. cbn zeta.
    destruct (set_order_nonempty (vertex_union graphs)) as (u & us & Hus).
    { intros HV. rewrite HV, size_empty in Hsize. lia. }
    rewrite Hus. cbn -[NetworkFuser_init].
    rewrite NetworkFuser_progress_init.
    assert (Hscan :
      mapM (NetworkFuser_above_threshold gt (NetworkFuser_init sim thr) u)
           (set_order (vertex_union graphs ∖ {[u]})) = Raise AttributeError).
    { rewrite mapM_above_threshold.
      destruct (set_order (vertex_union graphs ∖ {[u]})) eqn:E; [|done].
      exfalso. assert (Hlen : size (vertex_union graphs ∖ {[u]}) = 0).
      { by rewrite <- length_set_order, E. }
      assert (Hu : u ∈ vertex_union graphs).
      { apply elem_of_set_order. rewrite Hus. by left. }
      rewrite size_difference, size_singleton in Hlen; [lia|set_solver]. }
    destruct verbose as [k|]; cbn -[NetworkFuser_init]; [|by rewrite Hscan].
    destruct (decide (k = 0%Z)) as [->|Hk]; [done|].
    case_decide as Hmod.
    + change (Z.of_nat 1) with 1%Z in Hmod.
      apply one_mod_zero in Hmod as [-> | ->]; done.
    + cbn -[NetworkFuser_init]. rewrite Hscan.
      change (Z.of_nat 1) with 1%Z in Hmod. rewrite one_mod_zero in Hmod by done.
      destruct k as [|[]|[]]; try done; exfalso; apply Hmod; auto.
  - intros F HF x y. unfold NetworkFuser_fuse in HF. cbn zeta in HF.
    apply NetworkFuser_fuse_loop_ok in HF as ->.
    unfold nx_has_edge.
    rewrite elem_of_nx_adj_add_edges_from, nx_adj_add_nodes_from, nx_adj_empty.
    rewrite !list_elem_of_fmap. intros [?|[(a & [= -> ->] & _)|(a & [= -> ->] & _)]]; set_solver.
Qed.

(** C9.  On an empty vertex universe, and so on no input graph at all,
    [fuse] and [NetworkFuser.fuse] return the empty graph, for every value
    of [verbose]. *)
Theorem fuse_empty_universe_both t simfn sim thr graphs verbose kwargs :
  vertex_union graphs = ∅ →
  (∃ out, fuse set_order t simfn graphs verbose kwargs = (out, Ok ∅)) ∧
  NetworkFuser_fuse set_order gt (NetworkFuser_init sim thr) graphs verbose
  = Ok ∅.
Proof.
  intros HV. split; [by apply fuse_empty_universe|].
  unfold NetworkFuser_fuse. cbn zeta. by rewrite HV, set_order_empty.
Qed.

End NetworkFuser_facts.

Section collapse_facts.
Variable is_str : Node → bool.

(** ** The loop over the components *)

(* The edges drawn from component [a] to component [b]: one for every
   adjacency entry from [a] to [b], and when [a = b] as many again. *)
Lemma collapse_loop_edges gs (comps pre : list (gset Node)) id2 n2
    (col col' : @MultiGraph Node _ _) id2' n2' :
  disjoint_list (pre ++ comps) →
  (∀ v b, n2 !! v = Some b ↔ ∃ c', pre !! b = Some c' ∧ v ∈ c') →
  collapse_loop set_order is_str (PyGraph <$> gs) (length pre) comps id2 n2 col
  = (col', Ok (id2', n2')) →
  ∀ a b,
    length (filter (.= (a, b)) (mg_edges col'))
    = length (filter (.= (a, b)) (mg_edges col))
      + if decide (length pre ≤ a)
        then entries gs ((pre ++ comps) !!! a) ((pre ++ comps) !!! b)
             * (if decide (a = b) then 2 else 1)
        else 0.
Proof.
  revert pre id2 n2 col.
  induction comps as [|c comps IH]; intros pre id2 n2 col Hdis Hn2 Hloop a b.
  - cbn in Hloop. injection Hloop as <- _ _. rewrite app_nil_r.
    case_decide as Ha; [|lia].
    rewrite (list_lookup_total_alt pre a), (lookup_ge_None_2 pre a) by lia.
    cbn. unfold entries. rewrite elements_empty. cbn. lia.
  - cbn [collapse_loop] in Hloop. unfold update_node2fuse_id in Hloop.
    destruct (forallb is_str (set_order c)); [|done].
    destruct (scan_component c gs) as (nl & Hscan & Hlen).
    rewrite Hscan in Hloop.
    destruct (add_mapped_edges _ _ _ _) as [col1 [[]|]] eqn:Hadd; [|done].
    apply add_mapped_edges_ok in Hadd as [Hall Hcount].
    replace (S (length pre)) with (length (pre ++ [c])) in Hloop
      by (rewrite length_app; cbn; lia).
    pose proof (node2fuse_id_step pre comps c n2 Hdis Hn2) as Hn2'.
    apply IH with (a := a) (b := b) in Hloop;
      [|by rewrite <- app_assoc|done].
    rewrite <- app_assoc in Hloop. cbn [app] in Hloop.
    rewrite Hloop, mg_add_edges_from_replicate, filter_app, length_app.
    rewrite length_filter_replicate, Hcount. cbn [mg_add_node mg_edges].
    rewrite length_app. cbn [length]. rewrite Nat.add_1_r.
    set (all := pre ++ c :: comps) in *.
    destruct (decide (a = length pre)) as [->|Ha].
    + assert (Hc : all !!! length pre = c).
      { apply list_lookup_total_correct. unfold all. by rewrite list_lookup_middle. }
      rewrite Hc.
      assert (Hfil : filter (λ v, (gset_to_gmap (length pre) c ∪ n2) !! v = Some b) nl
                     = filter (.∈ all !!! b) nl).
      { apply filter_ext_in. intros v Hv. rewrite Hn2'. split.
        - intros (c' & Hc' & Hvc').
          erewrite list_lookup_total_correct; [done|].
          unfold all. rewrite (cons_middle c pre comps), app_assoc.
          by apply lookup_app_l_Some.
        - intros Hvb. destruct (Hall v Hv) as [b' Hb'].
          apply Hn2' in Hb' as Hb''. destruct Hb'' as (c' & Hc' & Hvc').
          rewrite list_lookup_total_alt in Hvb.
          destruct (all !! b) as [d|] eqn:Hd; cbn in Hvb; [|set_solver].
          assert (b' = b) as ->; [|by eauto].
          eapply (disjoint_list_lookup all b' b c' d v Hdis); [|done..].
          unfold all. rewrite (cons_middle c pre comps), app_assoc.
          by apply lookup_app_l_Some. }
      rewrite Hfil, !Hlen.
      rewrite (decide_True (P := length pre ≤ length pre)) by lia.
      rewrite (decide_False (P := S (length pre) ≤ length pre)) by lia.
      destruct (decide (length pre = b)) as [<-|Hb].
      * rewrite Hc. rewrite decide_True by done. lia.
      * rewrite decide_False by congruence. lia.
    + rewrite decide_False by congruence. 
      destruct (decide (length pre ≤ a)).
      * rewrite decide_True by lia. lia.
      * rewrite decide_False by lia. lia.
Qed.

(** ** [collapse_fused_graph] *)

Lemma collapse_fused_graph_maps fuser graphs
    (collapsed collapsed' : @MultiGraph Node _ _) id2 n2 :
  collapse_fused_graph set_order is_str fuser graphs collapsed
  = (collapsed', Ok (id2, n2)) →
  graph_wf fuser →
  let comps := sorted_by_len (nx_connected_component_subgraphs set_order fuser) in
  id2 = map_seq 0 comps ∧
  (∀ v b, n2 !! v = Some b ↔ ∃ c, comps !! b = Some c ∧ v ∈ c).
Proof.
  intros Hcol Hwf comps. unfold collapse_fused_graph in Hcol. cbn zeta in Hcol.
  destruct (conn_comps_partition fuser Hwf) as [Hu Hdis].
  apply collapse_loop_maps with (pre := []) in Hcol as [-> Hn2]; [|done|].
  - split; [|done]. by rewrite (right_id_L ∅ (∪)).
  - intros v b. rewrite lookup_empty. split; [done|]. by intros (c & Hc & _).
Qed.

(** C8.  When [collapse_fused_graph] returns, the member sets of
    [id2fused_set] partition the nodes of the fused graph: their sizes add
    up to the number of nodes, no node is in two of them, and
    [node2fuse_id] is defined on the nodes of the fused graph and sends each
    to the id of the one member set that holds it. *)
Theorem collapse_partition fuser graphs
    (collapsed collapsed' : @MultiGraph Node _ _) id2 n2 :
  graph_wf fuser →
  collapse_fused_graph set_order is_str fuser graphs collapsed
  = (collapsed', Ok (id2, n2)) →
  total_members id2 = size (dom fuser) ∧
  (∀ i j ci cj u,
     id2 !! i = Some ci → id2 !! j = Some cj → u ∈ ci → u ∈ cj → i = j) ∧
  dom n2 = dom fuser ∧
  (∀ u i, n2 !! u = Some i ↔ ∃ ci, id2 !! i = Some ci ∧ u ∈ ci).
Proof.
  intros Hwf Hcol.
  destruct (collapse_fused_graph_maps _ _ _ _ _ _ Hcol Hwf) as [-> Hn2].
  destruct (conn_comps_partition fuser Hwf) as [Hu Hdis].
  set (comps := sorted_by_len _) in *.
  split_and!.
  - by rewrite total_members_map_seq, disjoint_list_size, Hu.
  - intros i j ci cj u Hi Hj. rewrite lookup_map_seq_0 in Hi, Hj.
    by apply (disjoint_list_lookup comps).
  - apply set_eq. intros u. rewrite <- Hu, elem_of_dom, elem_of_union_list. split.
    + intros [b (c & Hc & Huc)%Hn2]. exists c. split; [|done].
      by eapply list_elem_of_lookup_2.
    + intros (c & [b Hb]%list_elem_of_lookup & Huc). exists b. apply Hn2. eauto.
  - intros u i. rewrite Hn2. by setoid_rewrite lookup_map_seq_0.
Qed.

Lemma collapse_fused_graph_count fuser gs
    (collapsed collapsed' : @MultiGraph Node _ _) id2 n2 a b ca cb :
  graph_wf fuser →
  collapse_fused_graph set_order is_str fuser (PyGraph <$> gs) collapsed
  = (collapsed', Ok (id2, n2)) →
  id2 !! a = Some ca → id2 !! b = Some cb →
  length (filter (.= (a, b)) (mg_edges collapsed'))
  = length (filter (.= (a, b)) (mg_edges collapsed))
    + entries gs ca cb * (if decide (a = b) then 2 else 1).
Proof.
  intros Hwf Hcol Ha Hb.
  destruct (collapse_fused_graph_maps _ _ _ _ _ _ Hcol Hwf) as [-> _].
  rewrite lookup_map_seq_0 in Ha, Hb.
  unfold collapse_fused_graph in Hcol. cbn zeta in Hcol.
  destruct (conn_comps_partition fuser Hwf) as [_ Hdis].
  apply (collapse_loop_edges gs _ []) with (a := a) (b := b) in Hcol;
    [|done|].
  - rewrite Hcol. cbn [length app]. rewrite decide_True by lia.
    by rewrite (list_lookup_total_correct _ _ _ Ha),
      (list_lookup_total_correct _ _ _ Hb).
  - intros v b'. rewrite lookup_empty. split; [done|]. by intros (c & Hc & _).
Qed.

(** ** Adjacency entries of a single undirected edge *)

(** C3, as amended.  When [collapse_fused_graph] returns, the self-loops it
    has added at a component are two for every adjacency entry inside the
    component, one from the pass over [neighbors] and one from the tally
    [self_loops].  A source graph made of one undirected edge inside the
    component has two such entries when its ends differ, which gives four
    self-loops, and one entry when it is a self-loop, which gives two. *)
Theorem collapse_internal_edge_loops fuser gs
    (collapsed collapsed' : @MultiGraph Node _ _) id2 n2 i ci :
  graph_wf fuser →
  collapse_fused_graph set_order is_str fuser (PyGraph <$> gs) collapsed
  = (collapsed', Ok (id2, n2)) →
  id2 !! i = Some ci →
  mg_number_of_edges collapsed' i i
  = mg_number_of_edges collapsed i i + entries gs ci ci + entries gs ci ci ∧
  ∀ a b, gs = [nx_add_edge a b ∅] → a ∈ ci → b ∈ ci →
    mg_number_of_edges collapsed' i i
    = mg_number_of_edges collapsed i i + if decide (a = b) then 2 else 4.
Proof.
  intros Hwf Hcol Hi.
  assert (Hn : mg_number_of_edges collapsed' i i
               = mg_number_of_edges collapsed i i + 2 * entries gs ci ci).
  { rewrite !mg_number_of_edges_count, !decide_True by done.
    rewrite (collapse_fused_graph_count _ _ _ _ _ _ _ _ _ _ Hwf Hcol Hi Hi).
    rewrite decide_True by done. lia. }
  split; [lia|].
  intros a b -> Ha Hb. rewrite Hn, entries_single_edge by done.
  case_decide; lia.
Qed.

(** ** The graph object [collapsed] and the precondition *)

(* On graphs, the loop fails only when a keyword is not a string or a
   neighbour has no component id yet. *)
Lemma collapse_loop_graphs_raise gs i (comps : list (gset Node)) id2 n2
    (col col' : @MultiGraph Node _ _) e :
  collapse_loop set_order is_str (PyGraph <$> gs) i comps id2 n2 col
  = (col', Raise e) →
  e = TypeError ∨ e = KeyError.
Proof.
  revert i id2 n2 col. induction comps as [|c comps IH]; intros i id2 n2 col.
  - done.
  - cbn [collapse_loop]. unfold update_node2fuse_id.
    destruct (forallb is_str (set_order c)); [|intros [= _ <-]; by left].
    destruct (scan_component c gs) as (nl & -> & _).
    destruct (add_mapped_edges _ _ _ _) as [col1 [[]|e']] eqn:Hadd.
    + apply IH.
    + intros [= _ <-]. right. clear -Hadd.
      revert Hadd. generalize (mg_add_node i col).
      induction nl as [|v nl IHnl]; intros m; cbn; [done|].
      destruct (_ !! v); [apply IHnl|by intros [= _ <-]].
Qed.

Lemma NetworkFuser_collapse_precondition fuser graphs
    (collapsed : @MultiGraph Node _ _) :
  (forallb isinstance_Graph graphs = false →
   NetworkFuser_collapse set_order is_str fuser graphs collapsed
   = (collapsed, Raise AssertionError)) ∧
  (forallb isinstance_Graph graphs = true →
   (NetworkFuser_collapse set_order is_str fuser graphs collapsed).2
   ≠ Raise AssertionError).
Proof.
  unfold NetworkFuser_collapse. split; intros Hall; rewrite Hall; [done|].
  apply isinstance_Graph_all in Hall as [gs ->].
  destruct (collapse_loop _ _ _ _ _ _ _ _) as [col' [[id2 n2]|e]] eqn:Hloop;
    [done|].
  apply collapse_loop_graphs_raise in Hloop as [-> | ->]; done.
Qed.

End collapse_facts.

End NetFUSES_facts.

(** * The claims on the sample inputs *)

Lemma elements_order (X : gset string) : elements X ≡ₚ elements X.
Proof. reflexivity. Defined.

Lemma fused_ab_fuse :
  fuse elements 0%Z oracle_all [g_ab] None () = ([], Ok fused_ab).
Proof. vm_compute. reflexivity. Defined.

Lemma fused_pairs_fuse :
  fuse elements 0%Z oracle_pairs [g_ab; g_cd] None () = ([], Ok fused_pairs).
Proof. vm_compute. reflexivity. Defined.

Lemma fused_ab_wf : graph_wf fused_ab.
Proof. exact (fuse_graph_wf _ _ _ _ _ _ _ _ fused_ab_fuse). Defined.

Lemma fused_pairs_wf : graph_wf fused_pairs.
Proof. exact (fuse_graph_wf _ _ _ _ _ _ _ _ fused_pairs_fuse). Defined.

Lemma collapse_ab_ok :
  collapse_ab
  = (collapse_ab.1, Ok ((maps_of collapse_ab).1, (maps_of collapse_ab).2)).
Proof. vm_compute. reflexivity. Defined.

Lemma collapse_pairs_ok :
  collapse_pairs
  = (collapse_pairs.1,
     Ok ((maps_of collapse_pairs).1, (maps_of collapse_pairs).2)).
Proof. vm_compute. reflexivity. Defined.

Lemma fuse_edge_iff_oracle_witness :
  nx_has_edge fused_pairs "a" "b" ↔
    reports oracle_pairs (vertex_union [g_ab; g_cd]) 0%Z () "a" "b" ∨
    reports oracle_pairs (vertex_union [g_ab; g_cd]) 0%Z () "b" "a".
Proof.
  apply (fuse_edge_iff_oracle elements elements_order 0%Z oracle_pairs
           [g_ab; g_cd] None () [] fused_pairs "a" "b").
  - exact fused_pairs_fuse.
  - vm_compute. reflexivity.
  - vm_compute. reflexivity.
  - discriminate.
Defined.

(* One undirected source edge, both ends in the one component: four
   self-loops at the component, not two. *)
Lemma collapse_two_loops_counterexample :
  g_ab = nx_add_edge "a" "b" ∅ ∧
  is_ok collapse_ab.2 = true ∧
  mg_number_of_edges collapse_ab.1 0 0 = 4 ∧
  mg_number_of_edges collapse_ab.1 0 0 ≠ 2.
Proof. vm_compute. repeat split. discriminate. Defined.

Lemma collapse_internal_edge_loops_witness :
  mg_number_of_edges collapse_ab.1 0 0
  = mg_number_of_edges fresh 0 0
    + entries [g_ab] {["a"; "b"]} {["a"; "b"]}
    + entries [g_ab] {["a"; "b"]} {["a"; "b"]} ∧
  ∀ a b, [g_ab] = [nx_add_edge a b ∅] → a ∈ ({["a"; "b"]} : gset string) →
    b ∈ ({["a"; "b"]} : gset string) →
    mg_number_of_edges collapse_ab.1 0 0
    = mg_number_of_edges fresh 0 0 + if decide (a = b) then 2 else 4.
Proof.
  apply (collapse_internal_edge_loops elements elements_order all_str fused_ab
           [g_ab] fresh collapse_ab.1
           (maps_of collapse_ab).1 (maps_of collapse_ab).2 0 {["a"; "b"]}).
  - exact fused_ab_wf.
  - exact collapse_ab_ok.
  - vm_compute. reflexivity.
Defined.

(** C4.  Two calls that leave [collapsed] out share the default graph: the
    second call starts from the four self-loops of the first and returns
    eight, where a call on a new multigraph returns four. *)
Theorem collapse_default_is_shared :
  is_ok first_call.2 = true ∧ is_ok second_call.2 = true ∧
  mg_edges first_call.1 = replicate 4 (0, 0) ∧
  mg_edges second_call.1 = replicate 8 (0, 0) ∧
  mg_edges
    (collapse_fused_graph elements all_str fused_ab [PyGraph g_ab] fresh).1
  = replicate 4 (0, 0).
Proof. vm_compute. repeat split. Qed.

(** C5.  [collapse_fused_graph] has no check of its source graphs: given a
    list of nodes in place of a graph it returns as if the list were not
    there, where [NetworkFuser.collapse] raises AssertionError on the same
    arguments. *)
Theorem collapse_fused_graph_accepts_a_list :
  is_ok (collapse_fused_graph elements all_str fused_ab [PyList ["x"]] fresh).2
  = true ∧
  collapse_fused_graph elements all_str fused_ab [PyList ["x"]] fresh
  = collapse_fused_graph elements all_str fused_ab [] fresh ∧
  NetworkFuser_collapse elements all_str fused_ab [PyList ["x"]] fresh
  = (fresh, Raise AssertionError).
Proof. vm_compute. repeat split. Qed.

Lemma fuse_verbose_zero_raises_witness :
  fuse elements 0%Z oracle_all [g_x] (Some 0%Z) ()
  = ([], Raise ZeroDivisionError).
Proof.
  apply (fuse_verbose_zero_raises elements elements_order 0%Z oracle_all
           [g_x] ()).
  vm_compute. discriminate.
Defined.



Lemma collapse_partition_witness :
  total_members (maps_of collapse_pairs).1 = size (dom fused_pairs) ∧
  (∀ i j ci cj u,
     (maps_of collapse_pairs).1 !! i = Some ci →
     (maps_of collapse_pairs).1 !! j = Some cj → u ∈ ci → u ∈ cj → i = j) ∧
  dom (maps_of collapse_pairs).2 = dom fused_pairs ∧
  (∀ u i, (maps_of collapse_pairs).2 !! u = Some i
          ↔ ∃ ci, (maps_of collapse_pairs).1 !! i = Some ci ∧ u ∈ ci).
Proof.
  apply (collapse_partition elements elements_order all_str fused_pairs
           (PyGraph <$> [g_ab; g_cd; g_arc]) fresh collapse_pairs.1).
  - exact fused_pairs_wf.
  - exact collapse_pairs_ok.
Defined.

Lemma fuse_empty_universe_both_witness :
  (∃ out, fuse elements 0%Z oracle_all [] (Some 0%Z) () = (out, Ok ∅)) ∧
  NetworkFuser_fuse elements Z.gtb sample_self [] (Some 0%Z) = Ok ∅.
Proof.
  apply (fuse_empty_universe_both elements elements_order Z.gtb 0%Z
           oracle_all sample_sim 0%Z [] (Some 0%Z) ()).
  reflexivity.
Defined.

(* With the default verbose=0 the method stops on the division, before it
   reads the misspelt attribute. *)
Lemma NetworkFuser_fuse_default_counterexample :
  2 ≤ size (vertex_union [g_ab]) ∧
  NetworkFuser_fuse elements Z.gtb sample_self [g_ab] (Some 0%Z)
  = Raise ZeroDivisionError ∧
  NetworkFuser_fuse elements Z.gtb sample_self [g_ab] (Some 0%Z)
  ≠ Raise AttributeError.
Proof. vm_compute. split; [lia|]. split; [reflexivity|discriminate]. Defined.

Lemma NetworkFuser_fuse_fails_witness :
  NetworkFuser_fuse elements Z.gtb sample_self [g_ab] (Some 2%Z)
  = Raise AttributeError ∧
  ∀ x y, nx_has_edge class_fused_x x y → x = y.
Proof.
  split.
  - apply (NetworkFuser_fuse_fails elements elements_order Z.gtb sample_sim
             0%Z [g_ab] (Some 2%Z)).
    vm_compute. lia.
  - apply (NetworkFuser_fuse_fails elements elements_order Z.gtb sample_sim
             0%Z [g_x] None).
    vm_compute. reflexivity.
Defined.

(** * Further properties of [fuse] *)

Section fuse_more_basic_facts.
Context `{Countable Node}.
Context {Threshold Kwargs : Type}.
Implicit Types (simfn : @Oracle Node _ _ Threshold Kwargs).
Implicit Types (G : Graph Node) (V : gset Node) (u v : Node).

(* The loop raises nothing of its own beside the division by verbose. *)
Lemma fuse_loop_raise t simfn kwargs verbose V i us G out out' e :
  fuse_loop t simfn kwargs verbose V i us G out = (out', Raise e) →
  (verbose = Some 0%Z ∧ e = ZeroDivisionError) ∨
  ∃ u, u ∈ us ∧ simfn u (V ∖ {[u]}) t kwargs = Raise e.
Proof.
  revert i G out. induction us as [|w us IH]; intros i G out Hloop; [done|].
  cbn in Hloop.
  destruct (progress verbose i (size V) t) as [line|e'] eqn:Hp.
  - destruct (simfn w (V ∖ {[w]}) t kwargs) as [analogs|e'] eqn:Hsim.
    + apply IH in Hloop as [?|(u & Hu & Hr)]; [by left|].
      right. exists u. split; [by right|done].
    + injection Hloop as _ <-. right. exists w. split; [by left|done].
  - injection Hloop as _ <-. left. unfold progress in Hp.
    destruct verbose as [k|]; [|done].
    destruct (decide (k = 0%Z)) as [->|]; [by injection Hp as <-|].
    by case_decide.
Qed.

Lemma fuse_loop_ok_oracle t simfn kwargs verbose V i us G out out' G' :
  fuse_loop t simfn kwargs verbose V i us G out = (out', Ok G') →
  (us = [] ∨ verbose ≠ Some 0%Z) ∧
  ∀ u, u ∈ us → is_ok (simfn u (V ∖ {[u]}) t kwargs) = true.
Proof.
  revert i G out. induction us as [|w us IH]; intros i G out Hloop.
  - split; [by left|]. by intros u ?%elem_of_nil.
  - cbn in Hloop.
    destruct (progress verbose i (size V) t) as [line|e'] eqn:Hp; [|done].
    destruct (simfn w (V ∖ {[w]}) t kwargs) as [analogs|e'] eqn:Hsim; [|done].
    apply IH in Hloop as [_ Hall]. split.
    + right. intros ->. unfold progress in Hp. by rewrite decide_True in Hp.
    + intros u [->|Hu]%elem_of_cons; [by rewrite Hsim|by apply Hall].
Qed.

(* What a run of the loop prints: a line at every index that [k] divides. *)
Lemma fuse_loop_output t simfn kwargs (k : Z) V i us G out out' G' :
  fuse_loop t simfn kwargs (Some k) V i us G out = (out', Ok G') →
  out' = out ++ ((λ j, Progress j (size V) t)
                 <$> filter (λ j, (Z.of_nat j `mod` k)%Z = 0%Z)
                       (seq i (length us))).
Proof.
  revert i G out. induction us as [|w us IH]; intros i G out Hloop.
  - cbn in Hloop. injection Hloop as <- _. cbn. by rewrite app_nil_r.
  - cbn in Hloop. unfold progress in Hloop.
    destruct (decide (k = 0%Z)) as [->|Hk]; [done|].
    cbn [length seq]. rewrite filter_cons.
    destruct (decide ((Z.of_nat i `mod` k)%Z = 0%Z)) as [Hi|Hi];
      destruct (simfn w (V ∖ {[w]}) t kwargs) as [analogs|e']; try done;
      apply IH in Hloop as ->; cbn; by rewrite <- app_assoc.
Qed.

Lemma fuse_loop_silent t simfn kwargs V i us G out out' r :
  fuse_loop t simfn kwargs None V i us G out = (out', r) → out' = out.
Proof.
  revert i G out. induction us as [|w us IH]; intros i G out Hloop.
  - cbn in Hloop. by injection Hloop as <- _.
  - cbn in Hloop.
    destruct (simfn w (V ∖ {[w]}) t kwargs) as [analogs|e'].
    + apply IH in Hloop as ->. by rewrite app_nil_r.
    + injection Hloop as <- _. by rewrite app_nil_r.
Qed.

End fuse_more_basic_facts.

Section fuse_more_order_facts.
Context `{Countable Node}.
Context {Threshold Kwargs : Type}.
Variable set_order : gset Node → list Node.
Implicit Types (simfn : @Oracle Node _ _ Threshold Kwargs).
Implicit Types (G : Graph Node) (V : gset Node) (u v : Node).

(** X1.  The fused graph is stored undirected: an edge found from [u] is
    also an edge from [v], whichever side the oracle reported it from, and
    its two ends are nodes of the graph. *)
Theorem fuse_is_undirected t simfn graphs verbose kwargs out G u v :
  fuse set_order t simfn graphs verbose kwargs = (out, Ok G) →
  nx_has_edge G u v →
  nx_has_edge G v u ∧ u ∈ dom G ∧ v ∈ dom G.
Proof.
  intros Hfuse Huv. apply fuse_graph_wf in Hfuse.
  destruct (Hfuse u v Huv) as [Hv Hvu]. destruct (Hfuse v u Hvu) as [Hu _].
  done.
Qed.

(** X4.  With [verbose=None] nothing is printed, whether the call returns
    or raises. *)
Theorem fuse_verbose_None_silent t simfn graphs kwargs :
  (fuse set_order t simfn graphs None kwargs).1 = [].
Proof.
  unfold fuse. cbn zeta.
  destruct (fuse_loop _ _ _ _ _ _ _ _ _) as [out [G|e]] eqn:Hloop;
    apply fuse_loop_silent in Hloop as ->; done.
Qed.

(** X3.  Away from [verbose=0], the value of [verbose] changes what is
    printed and nothing else: the call returns the same graph, or raises
    the same exception, as with [verbose=None]. *)
Theorem fuse_verbose_only_prints t simfn graphs verbose kwargs :
  verbose ≠ Some 0%Z →
  (fuse set_order t simfn graphs verbose kwargs).2
  = (fuse set_order t simfn graphs None kwargs).2.
Proof. apply fuse_verbose_observational. Qed.

End fuse_more_order_facts.

Section fuse_more_facts.
Context `{Countable Node}.
Context {Threshold Kwargs : Type}.
Variable set_order : gset Node → list Node.
Hypothesis set_order_perm : ∀ X, set_order X ≡ₚ elements X.
Implicit Types (simfn : @Oracle Node _ _ Threshold Kwargs).
Implicit Types (G : Graph Node) (V : gset Node) (u v : Node).

(** X2.  [fuse] returns a graph exactly when the vertex universe is empty,
    or [verbose] is not 0 and the oracle raises at no node of the universe. *)
Theorem fuse_returns_iff t simfn graphs verbose kwargs :
  (∃ out G, fuse set_order t simfn graphs verbose kwargs = (out, Ok G)) ↔
  vertex_union graphs = ∅ ∨
  (verbose ≠ Some 0%Z ∧
   ∀ u, u ∈ vertex_union graphs →
     is_ok (simfn u (vertex_union graphs ∖ {[u]}) t kwargs) = true).
Proof.
  split.
  - intros (out & G & [out0 Hloop]%fuse_ok_inv).
    apply fuse_loop_ok_oracle in Hloop as [[Hnil|Hv] Hall].
    + left. apply set_eq. intros x.
      rewrite <- (elem_of_set_order set_order set_order_perm), Hnil.
      set_solver.
    + right. split; [done|]. intros u Hu. apply Hall.
      by apply (elem_of_set_order set_order set_order_perm).
  - intros [HV|[Hv Hall]].
    + destruct (fuse_empty_universe set_order set_order_perm t simfn graphs
                  verbose kwargs HV) as [out Hout]. eauto.
    + by apply fuse_returns.
Qed.

(** X5.  The only exception of its own that [fuse] raises is the
    ZeroDivisionError of [verbose=0]; every other exception is one that the
    oracle raised at a node of the universe, handed on as it is. *)
Theorem fuse_raises_only_oracle_errors t simfn graphs verbose kwargs out e :
  fuse set_order t simfn graphs verbose kwargs = (out, Raise e) →
  (verbose = Some 0%Z ∧ e = ZeroDivisionError) ∨
  ∃ u, u ∈ vertex_union graphs ∧
       simfn u (vertex_union graphs ∖ {[u]}) t kwargs = Raise e.
Proof.
  unfold fuse. cbn zeta.
  destruct (fuse_loop _ _ _ _ _ _ _ _ _) as [out0 [G|e']] eqn:Hloop; [done|].
  intros [= _ ->].
  apply fuse_loop_raise in Hloop as [?|(u & Hu & Hr)]; [by left|].
  right. exists u. split; [|done].
  by apply (elem_of_set_order set_order set_order_perm).
Qed.

(** X6.  When [fuse] returns with [verbose=k], what it has printed is one
    progress line for every index from 1 to the number of nodes that [k]
    divides, in increasing order, and then the line [performed fuse]. *)
Theorem fuse_output t simfn graphs (k : Z) kwargs out G :
  fuse set_order t simfn graphs (Some k) kwargs = (out, Ok G) →
  out = ((λ j, Progress j (size (vertex_union graphs)) t)
         <$> filter (λ j, (Z.of_nat j `mod` k)%Z = 0%Z)
               (seq 1 (size (vertex_union graphs))))
        ++ [PerformedFuse].
Proof.
  unfold fuse. cbn zeta.
  destruct (fuse_loop _ _ _ _ _ _ _ _ _) as [out0 [G0|e']] eqn:Hloop; [|done].
  intros [= <- _]. apply fuse_loop_output in Hloop as ->.
  by rewrite (length_set_order set_order set_order_perm).
Qed.

End fuse_more_facts.

(** * Further properties of [NetworkFuser.fuse] *)

Section NetworkFuser_more_facts.
Context `{Countable Node}.
Context {Threshold : Type}.
Variable set_order : gset Node → list Node.
Hypothesis set_order_perm : ∀ X, set_order X ≡ₚ elements X.
Variable gt : Threshold → Threshold → bool.
Implicit Types (sim : Node → Node → Threshold) (thr : Threshold).

(** X7.  [NetworkFuser.fuse] returns a graph exactly when the vertex
    universe is empty, or has a single node and [verbose] is none of 0, 1
    and -1: with one node there is no candidate to score, so the misspelt
    attribute is never read. *)
Theorem NetworkFuser_fuse_returns_iff sim thr graphs verbose :
  is_ok (NetworkFuser_fuse set_order gt (NetworkFuser_init sim thr)
           graphs verbose) = true ↔
  vertex_union graphs = ∅ ∨
  (size (vertex_union graphs) = 1 ∧
   verbose ≠ Some 0%Z ∧ verbose ≠ Some 1%Z ∧ verbose ≠ Some (-1)%Z).
Proof.
  unfold NetworkFuser_fuse. cbn zeta.
  pose proof (length_set_order set_order set_order_perm (vertex_union graphs))
    as Hlen.
  destruct (set_order (vertex_union graphs)) as [|u us] eqn:Hus.
  - cbn. split; [intros _|done]. left. cbn in Hlen. symmetry in Hlen.
    apply size_empty_inv in Hlen. by apply leibniz_equiv.
  - assert (u ∈ vertex_union graphs) as Hu.
    { apply (elem_of_set_order set_order set_order_perm). rewrite Hus. by left. }
    assert (vertex_union graphs ≠ ∅) as Hne by set_solver.
    pose proof (length_set_order set_order set_order_perm
                  (vertex_union graphs ∖ {[u]})) as Hlen'.
    rewrite size_difference, size_singleton in Hlen' by set_solver.
    cbn [length] in Hlen.
    cbn -[NetworkFuser_init]. rewrite NetworkFuser_progress_init.
    rewrite mapM_above_threshold.
    destruct (set_order (vertex_union graphs ∖ {[u]})) as [|w ws] eqn:Hrest.
    + cbn [length] in Hlen'. assert (us = []) as ->.
      { destruct us; [done|]. cbn in Hlen. lia. }
      destruct verbose as [k|]; cbn -[NetworkFuser_init].
      * destruct (decide (k = 0%Z)) as [->|Hk].
        { cbn. split; [done|]. intros [?|(_ & ? & _)]; done. }
        change (Z.of_nat 1) with 1%Z.
        destruct (decide ((1 `mod` k)%Z = 0%Z)) as [Hmod|Hmod];
          cbn -[NetworkFuser_init].
        -- split; [done|]. intros [?|(_ & _ & H1 & Hm1)]; [done|].
           apply one_mod_zero in Hmod as [-> | ->]; done.
        -- split; [intros _|done]. right. split; [lia|].
           rewrite one_mod_zero in Hmod by done.
           split_and!; intros [= ->]; tauto.
      * split; [intros _|done]. right. split; [lia|done].
    + cbn [length] in Hlen'. split.
      * destruct verbose as [k|]; [|done]. cbn -[NetworkFuser_init].
        destruct (decide (k = 0%Z)); [done|]. by case_decide.
      * intros [?|[? _]]; [done|lia].
Qed.

End NetworkFuser_more_facts.

(** * Further properties of the collapse *)

Section collapse_more_basic_facts.
Context `{Countable Node}.
Implicit Types (G : Graph Node) (u v : Node) (c d : gset Node).

(** ** The search finds what a chain of edges reaches *)

Lemma plain_bfs_loop_reach fuel G seen next source :
  (∀ x, x ∈ seen → connected G source x) →
  (∀ x, x ∈ next → connected G source x) →
  ∀ x, x ∈ plain_bfs_loop fuel G seen next → connected G source x.
Proof.
  revert seen next. induction fuel as [|fuel IH]; intros seen next Hs Hn; cbn.
  - done.
  - case_decide; [done|]. apply IH.
    + intros x [?|[? _]%elem_of_difference]%elem_of_union; auto.
    + intros x (u & [Hu _]%elem_of_difference & Hx)%elem_of_neighbours_of.
      eapply rtc_r; [by apply Hn|done].
Qed.

Lemma plain_bfs_spec G source x :
  graph_wf G → source ∈ dom G →
  x ∈ plain_bfs G source ↔ connected G source x.
Proof.
  intros Hwf Hsrc. split.
  - apply plain_bfs_loop_reach; [set_solver|].
    intros y ->%elem_of_singleton. apply rtc_refl.
  - intros Hc. pose proof (plain_bfs_closed G source Hwf Hsrc) as Hcl.
    pose proof (plain_bfs_source G source) as Hin.
    revert Hcl Hin. generalize (plain_bfs G source). clear Hsrc. intros S.
    unfold connected in Hc.
    induction Hc as [|a b c' Hab _ IH]; intros Hcl Ha; [done|].
    apply IH; [done|]. by apply (Hcl a b).
Qed.

Lemma connected_sym G u v :
  graph_wf G → connected G u v → connected G v u.
Proof.
  intros Hwf Hc. induction Hc as [|a b c' Hab _ IH]; [apply rtc_refl|].
  eapply rtc_r; [exact IH|]. by destruct (Hwf a b Hab).
Qed.

Lemma graph_wf_symmetric G : graph_wf G → symmetric G.
Proof. intros Hwf u v Hv. by destruct (Hwf u v Hv). Qed.

Lemma components_fold_bfs G vs (st : gset Node * list (gset Node)) :
  (∀ v, v ∈ vs → v ∈ dom G) →
  (∀ c, c ∈ st.2 → ∃ v, v ∈ dom G ∧ c = plain_bfs G v) →
  ∀ c, c ∈ (foldl (components_step G) st vs).2 →
    ∃ v, v ∈ dom G ∧ c = plain_bfs G v.
Proof.
  revert st. induction vs as [|w vs IH]; intros st Hvs Hst; cbn [foldl]; [done|].
  apply IH; [intros v Hv; apply Hvs; by right|].
  unfold components_step. case_decide; [done|]. cbn.
  intros c [Hc| ->%list_elem_of_singleton]%elem_of_app; [by apply Hst|].
  exists w. split; [apply Hvs; by left|done].
Qed.

(** ** [sorted(..., key=len)] *)

Lemma insert_by_len_sorted c (cs : list (gset Node)) :
  StronglySorted (λ a b : gset Node, size a ≤ size b) cs →
  StronglySorted (λ a b : gset Node, size a ≤ size b) (insert_by_len c cs).
Proof.
  induction 1 as [|d cs Hs IH Hd]; cbn.
  - repeat constructor.
  - case_decide as Hle.
    + constructor; [by constructor|]. constructor; [done|].
      eapply Forall_impl; [exact Hd|]. intros; cbn in *; lia.
    + constructor; [done|].
      apply (Forall_forall (λ b : gset Node, size d ≤ size b)).
      intros x Hx. rewrite insert_by_len_perm in Hx.
      apply elem_of_cons in Hx as [->|Hx]; [lia|].
      by apply (proj1 (Forall_forall _ _) Hd).
Qed.

Lemma sorted_by_len_sorted (cs : list (gset Node)) :
  StronglySorted (λ a b : gset Node, size a ≤ size b) (sorted_by_len cs).
Proof.
  induction cs as [|c cs IH]; cbn; [constructor|by apply insert_by_len_sorted].
Qed.

Lemma sorted_by_len_lookup (cs : list (gset Node)) (i j : nat) ci cj :
  sorted_by_len cs !! i = Some ci → sorted_by_len cs !! j = Some cj →
  i ≤ j → size ci ≤ size cj.
Proof.
  pose proof (sorted_by_len_sorted cs) as Hs. revert Hs.
  generalize (sorted_by_len cs). intros l Hs. revert i j.
  induction Hs as [|d l Hs IH Hd]; intros i j Hi Hj Hij; [done|].
  destruct i as [|i], j as [|j]; cbn in Hi, Hj; simplify_eq; [lia| |lia|].
  - apply (proj1 (Forall_forall _ _) Hd). by eapply list_elem_of_lookup_2.
  - apply (IH i j); [done..|lia].
Qed.

(** ** The neighbours met by the scan of a component *)

Lemma sum_list_pos (l : list nat) : 0 < sum_list l ↔ ∃ n, n ∈ l ∧ 0 < n.
Proof.
  induction l as [|a l IH]; cbn.
  - split; [lia|]. by intros (n & ?%elem_of_nil & _).
  - split.
    + intros Hs. destruct (decide (0 < a)).
      * exists a. split; [by left|done].
      * destruct (proj1 IH) as (m & Hm & ?); [lia|].
        exists m. split; [by right|done].
    + intros (n & [->|Hn]%elem_of_cons & Hpos); [lia|].
      assert (0 < sum_list l) by (apply IH; eauto). lia.
Qed.

Lemma entries_pos (gs : list (Graph Node)) c d :
  0 < entries gs c d ↔
  ∃ u g v, u ∈ c ∧ g ∈ gs ∧ v ∈ nx_adj g u ∧ v ∈ d.
Proof.
  unfold entries. rewrite sum_list_pos. split.
  - intros (n & Hn & Hpos).
    apply list_elem_of_bind in Hn as (u & Hn & Hu).
    apply list_elem_of_bind in Hn as (g & Hn & Hg).
    apply list_elem_of_singleton in Hn as ->.
    apply elem_of_elements in Hu.
    destruct (set_choose_L (nx_adj g u ∩ d)) as [v Hv].
    { intros Hempty. rewrite Hempty, size_empty in Hpos. lia. }
    exists u, g, v. set_solver.
  - intros (u & g & v & Hu & Hg & Hv & Hd).
    exists (size (nx_adj g u ∩ d)). split.
    + apply list_elem_of_bind. exists u. split; [|by apply elem_of_elements].
      apply list_elem_of_bind. exists g. split; [|done].
      by apply list_elem_of_singleton.
    + assert (size (nx_adj g u ∩ d) ≠ 0); [|lia].
      apply size_non_empty_iff. set_solver.
Qed.

Lemma elem_of_filter_length (l : list Node) x :
  x ∈ l ↔ 0 < length (filter (.∈ ({[x]} : gset Node)) l).
Proof.
  induction l as [|a l IH].
  - cbn. split; [by intros ?%elem_of_nil|lia].
  - rewrite filter_cons, elem_of_cons, IH.
    destruct (decide (a ∈ ({[x]} : gset Node))) as [Ha|Ha]; cbn.
    + split; [lia|]. intros _. left. set_solver.
    + split; [|tauto]. intros [->|?]; [set_solver|done].
Qed.

(** ** The lookups of [node2fuse_id] *)

Lemma add_mapped_edges_returns (i : nat) (n2 : gmap Node nat) nl
    (col : @MultiGraph Node _ _) :
  (∀ v, v ∈ nl → is_Some (n2 !! v)) →
  ∃ col', add_mapped_edges i n2 nl col = (col', Ok ()).
Proof.
  revert col. induction nl as [|v nl IH]; intros col Hall; cbn; [eauto|].
  destruct (Hall v) as [j ->]; [by left|].
  apply IH. intros w Hw. apply Hall. by right.
Qed.

Lemma add_mapped_edges_raises (i : nat) (n2 : gmap Node nat) nl
    (col col' : @MultiGraph Node _ _) e :
  add_mapped_edges i n2 nl col = (col', Raise e) →
  e = KeyError ∧ ∃ v, v ∈ nl ∧ n2 !! v = None.
Proof.
  revert col. induction nl as [|v nl IH]; intros col; cbn; [done|].
  destruct (n2 !! v) as [j|] eqn:Hv.
  - intros (-> & w & Hw & Hnone)%IH. split; [done|].
    exists w. split; [by right|done].
  - intros [= _ <-]. split; [done|]. exists v. split; [by left|done].
Qed.

End collapse_more_basic_facts.

Section collapse_more_facts.
Context `{Countable Node}.
Variable set_order : gset Node → list Node.
Hypothesis set_order_perm : ∀ X, set_order X ≡ₚ elements X.
Variable is_str : Node → bool.
Implicit Types (G fuser : Graph Node) (u v : Node) (c d : gset Node).
Implicit Types (gs : list (Graph Node)).

Lemma scan_component_elem c gs :
  ∃ nl,
    scan_nodes set_order c (PyGraph <$> gs) (set_order c) ([], [])
    = Ok (filter (.∈ c) nl, nl) ∧
    ∀ v, v ∈ nl ↔ ∃ u g, u ∈ c ∧ g ∈ gs ∧ v ∈ nx_adj g u.
Proof.
  destruct (scan_component set_order set_order_perm c gs) as (nl & Hscan & Hlen).
  exists nl. split; [done|]. intros v.
  rewrite elem_of_filter_length, Hlen, entries_pos. split.
  - intros (u & g & w & Hu & Hg & Hw & ->%elem_of_singleton). eauto.
  - intros (u & g & Hu & Hg & Hv). exists u, g, v. set_solver.
Qed.

Lemma forallb_is_str c :
  forallb is_str (set_order c) = true ↔ ∀ u, u ∈ c → is_str u = true.
Proof.
  rewrite forallb_forall. split.
  - intros Hall u Hu. apply Hall, list_elem_of_In.
    by apply (elem_of_set_order set_order set_order_perm).
  - intros Hall u Hu%list_elem_of_In. apply Hall.
    by apply (elem_of_set_order set_order set_order_perm) in Hu.
Qed.

Lemma forallb_is_str_false c :
  forallb is_str (set_order c) = false → ∃ u, u ∈ c ∧ is_str u = false.
Proof.
  intros Hf.
  assert (∃ u, u ∈ set_order c ∧ is_str u = false) as (u & Hu & Hns).
  { induction (set_order c) as [|a l IH]; [done|]. cbn in Hf.
    destruct (is_str a) eqn:Ha.
    - destruct (IH Hf) as (u & Hu & Hns). exists u. split; [by right|done].
    - exists a. split; [by left|done]. }
  exists u. split; [|done].
  by apply (elem_of_set_order set_order set_order_perm) in Hu.
Qed.

(* What the loop does on graphs, by its outcome. *)
Lemma collapse_loop_graphs_spec gs (comps pre : list (gset Node)) id2 n2
    (col : @MultiGraph Node _ _) :
  disjoint_list (pre ++ comps) →
  (∀ v b, n2 !! v = Some b ↔ ∃ c', pre !! b = Some c' ∧ v ∈ c') →
  match (collapse_loop set_order is_str (PyGraph <$> gs) (length pre) comps
           id2 n2 col).2 with
  | Ok _ =>
      (∀ c u, c ∈ comps → u ∈ c → is_str u = true) ∧
      (∀ k c u g v, comps !! k = Some c → u ∈ c → g ∈ gs → v ∈ nx_adj g u →
         ∃ j c', (pre ++ comps) !! j = Some c' ∧ v ∈ c' ∧ j ≤ length pre + k)
  | Raise e =>
      (e = TypeError ∧ ∃ c u, c ∈ comps ∧ u ∈ c ∧ is_str u = false) ∨
      (e = KeyError ∧
       ∃ k c u g v, comps !! k = Some c ∧ u ∈ c ∧ g ∈ gs ∧ v ∈ nx_adj g u ∧
         ∀ j c', (pre ++ comps) !! j = Some c' → v ∈ c' → length pre + k < j)
  end.
Proof.
  revert pre id2 n2 col.
  induction comps as [|c comps IH]; intros pre id2 n2 col Hdis Hn2.
  - cbn. split; [by intros c u ?%elem_of_nil|]. by intros [] ??????.
  - cbn [collapse_loop]. unfold update_node2fuse_id.
    destruct (forallb is_str (set_order c)) eqn:Hstr.
    2:{ cbn. left. split; [done|]. exists c.
        apply forallb_is_str_false in Hstr as (u & Hu & Hns).
        exists u. split; [by left|done]. }
    pose proof (node2fuse_id_step pre comps c n2 Hdis Hn2) as Hn2'.
    destruct (scan_component_elem c gs) as (nl & -> & Hnl).
    destruct (add_mapped_edges _ _ _ _) as [col1 [[]|e']] eqn:Hadd.
    + apply add_mapped_edges_ok in Hadd as [Hsome _].
      specialize (IH (pre ++ [c]) (<[length pre:=c]> id2)
        (gset_to_gmap (length pre) c ∪ n2)
        (mg_add_edges_from
           (replicate (length (filter (.∈ c) nl)) (length pre, length pre))
           col1)).
      rewrite <- app_assoc in IH. cbn [app] in IH.
      replace (length (pre ++ [c])) with (S (length pre)) in IH
        by (rewrite length_app; cbn; lia).
      specialize (IH Hdis Hn2').
      destruct (collapse_loop _ _ _ _ _ _ _ _).2 as [r|e].
      * destruct IH as [Hall Hin]. split.
        -- intros c0 u [->|Hc0]%elem_of_cons Hu; [|by eapply Hall].
           by apply (proj1 (forallb_is_str c) Hstr).
        -- intros [|k] c0 u g v Hc0 Hu Hg Hv.
           ++ cbn in Hc0. injection Hc0 as <-.
              destruct (Hsome v) as [b Hb].
              { apply Hnl. eauto. }
              apply Hn2' in Hb as (c' & Hc' & Hvc').
              assert (b < length (pre ++ [c])) as Hlt
                by (by eapply lookup_lt_Some).
              rewrite length_app in Hlt. cbn in Hlt.
              exists b, c'. split; [|split; [done|lia]].
              rewrite (cons_middle c pre comps), app_assoc.
              rewrite lookup_app_l; [done|]. rewrite length_app. cbn. lia.
           ++ cbn in Hc0.
              destruct (Hin k c0 u g v Hc0 Hu Hg Hv) as (j & c' & ? & ? & ?).
              exists j, c'. split; [done|]. split; [done|lia].
      * destruct IH as [(-> & c0 & u & Hc0 & Hu & Hns)|
                        (-> & k & c0 & u & g & v & Hc0 & Hu & Hg & Hv & Hlate)].
        -- left. split; [done|]. exists c0, u. split; [by right|done].
        -- right. split; [done|]. exists (S k), c0, u, g, v.
           split_and!; [done..|]. intros j c' Hj Hvc'.
           specialize (Hlate j c' Hj Hvc'). lia.
    + cbn. apply add_mapped_edges_raises in Hadd as (-> & v & Hv & Hnone).
      right. split; [done|].
      apply Hnl in Hv as (u & g & Hu & Hg & Hv).
      exists 0, c, u, g, v. split_and!; [done..|].
      intros j c' Hj Hvc'. destruct (decide (j ≤ length pre)) as [Hle|]; [|lia].
      exfalso. assert (is_Some ((gset_to_gmap (length pre) c ∪ n2) !! v)) as [b Hb];
        [|congruence].
      exists j. apply Hn2'. exists c'. split; [|done].
      rewrite <- Hj. rewrite (cons_middle c pre comps), app_assoc.
      symmetry. apply lookup_app_l. rewrite length_app. cbn. lia.
Qed.

End collapse_more_facts.

Section components_more_facts.
Context `{Countable Node}.
Variable set_order : gset Node → list Node.
Hypothesis set_order_perm : ∀ X, set_order X ≡ₚ elements X.
Implicit Types (G : Graph Node) (u v : Node) (c d : gset Node).

(* A component is what the search reaches from one of its nodes. *)
Lemma conn_comps_bfs G c :
  graph_wf G →
  c ∈ sorted_by_len (nx_connected_component_subgraphs set_order G) →
  ∃ s, s ∈ dom G ∧ ∀ x, x ∈ c ↔ connected G s x.
Proof.
  intros Hwf Hc. rewrite sorted_by_len_perm in Hc.
  unfold nx_connected_component_subgraphs in Hc.
  apply components_fold_bfs in Hc as (s & Hs & ->).
  - exists s. split; [done|]. intros x. by apply plain_bfs_spec.
  - intros v Hv. by apply (elem_of_set_order set_order set_order_perm) in Hv.
  - by intros c' ?%elem_of_nil.
Qed.

Lemma conn_comps_same G c u v :
  graph_wf G →
  c ∈ sorted_by_len (nx_connected_component_subgraphs set_order G) →
  u ∈ c → v ∈ c ↔ connected G u v.
Proof.
  intros Hwf Hc Hu. destruct (conn_comps_bfs G c Hwf Hc) as (s & Hs & Hspec).
  rewrite Hspec. apply Hspec in Hu. split.
  - intros Hv. etrans; [|exact Hv]. by apply connected_sym.
  - intros Huv. by etrans.
Qed.

Lemma conn_comps_cover G u :
  graph_wf G → u ∈ dom G →
  ∃ i c, sorted_by_len (nx_connected_component_subgraphs set_order G) !! i
         = Some c ∧ u ∈ c.
Proof.
  intros Hwf Hu.
  destruct (conn_comps_partition set_order set_order_perm G Hwf) as [Hcov _].
  rewrite <- Hcov in Hu. apply elem_of_union_list in Hu as (c & Hc & Huc).
  apply list_elem_of_lookup in Hc as [i Hi]. eauto.
Qed.

Lemma conn_comps_dom G i c u :
  graph_wf G →
  sorted_by_len (nx_connected_component_subgraphs set_order G) !! i = Some c →
  u ∈ c → u ∈ dom G.
Proof.
  intros Hwf Hi Hu.
  destruct (conn_comps_partition set_order set_order_perm G Hwf) as [Hcov _].
  rewrite <- Hcov. apply elem_of_union_list. exists c. split; [|done].
  by eapply list_elem_of_lookup_2.
Qed.

End components_more_facts.

Section collapse_more_theorems.
Context `{Countable Node}.
Variable set_order : gset Node → list Node.
Hypothesis set_order_perm : ∀ X, set_order X ≡ₚ elements X.
Variable is_str : Node → bool.
Implicit Types (G fuser : Graph Node) (u v : Node) (c d : gset Node).
Implicit Types (gs : list (Graph Node)).
Implicit Types (collapsed : @MultiGraph Node _ _).

Lemma forallb_isinstance_Graph gs :
  forallb (isinstance_Graph (Node := Node)) (PyGraph <$> gs) = true.
Proof. induction gs as [|g gs IH]; [done|]. cbn. exact IH. Qed.

(* On graphs the method runs the loop of the function, and then sets the
   attribute. *)
Lemma NetworkFuser_collapse_graphs fuser gs collapsed :
  NetworkFuser_collapse set_order is_str fuser (PyGraph <$> gs) collapsed
  = match collapse_fused_graph set_order is_str fuser (PyGraph <$> gs)
            collapsed with
    | (col', Ok (id2, n2)) => (mg_set_fused_set id2 col', Ok n2)
    | (col', Raise e) => (col', Raise e)
    end.
Proof.
  unfold NetworkFuser_collapse, collapse_fused_graph.
  by rewrite forallb_isinstance_Graph.
Qed.

Lemma collapse_fused_graph_graphs_spec fuser gs collapsed :
  graph_wf fuser →
  match (collapse_fused_graph set_order is_str fuser (PyGraph <$> gs)
           collapsed).2 with
  | Ok (id2, n2) =>
      (∀ u, u ∈ dom fuser → is_str u = true) ∧
      (∀ g u v, g ∈ gs → u ∈ dom fuser → v ∈ nx_adj g u →
         ∃ i j, n2 !! u = Some i ∧ n2 !! v = Some j ∧ j ≤ i)
  | Raise e =>
      (e = TypeError ∧ ∃ u, u ∈ dom fuser ∧ is_str u = false) ∨
      (e = KeyError ∧
       ∃ g u v, g ∈ gs ∧ u ∈ dom fuser ∧ v ∈ nx_adj g u ∧
                ¬ connected fuser u v)
  end.
Proof.
  intros Hwf.
  destruct (collapse_fused_graph _ _ _ _ _) as [col' [[id2 n2]|e]] eqn:Hcall.
  - destruct (collapse_fused_graph_maps set_order set_order_perm is_str
                fuser _ _ _ _ _ Hcall Hwf) as [_ Hn2].
    unfold collapse_fused_graph in Hcall. cbn zeta in Hcall.
    destruct (conn_comps_partition set_order set_order_perm fuser Hwf)
      as [Hcov Hdis].
    pose proof (collapse_loop_graphs_spec set_order set_order_perm is_str gs
      (sorted_by_len (nx_connected_component_subgraphs set_order fuser)) []
      ∅ ∅ collapsed Hdis) as Hspec.
    cbn [length app] in Hspec. rewrite Hcall in Hspec. cbn in Hspec.
    destruct Hspec as [Hstr Hin].
    { intros v b. rewrite lookup_empty. split; [done|].
      intros (c' & Hc' & _). by rewrite lookup_nil in Hc'. }
    split.
    + intros u Hu.
      destruct (conn_comps_cover set_order set_order_perm fuser u Hwf Hu)
        as (i & c & Hi & Huc).
      apply (Hstr c u); [by eapply list_elem_of_lookup_2|done].
    + intros g u v Hg Hu Hv.
      destruct (conn_comps_cover set_order set_order_perm fuser u Hwf Hu)
        as (i & c & Hi & Huc).
      destruct (Hin i c u g v Hi Huc Hg Hv) as (j & c' & Hj & Hvc' & Hle).
      exists i, j. split_and!; [apply Hn2; eauto|apply Hn2; eauto|lia].
  - unfold collapse_fused_graph in Hcall. cbn zeta in Hcall.
    destruct (conn_comps_partition set_order set_order_perm fuser Hwf)
      as [Hcov Hdis].
    pose proof (collapse_loop_graphs_spec set_order set_order_perm is_str gs
      (sorted_by_len (nx_connected_component_subgraphs set_order fuser)) []
      ∅ ∅ collapsed Hdis) as Hspec.
    cbn [length app] in Hspec. rewrite Hcall in Hspec. cbn in Hspec.
    destruct Hspec as [(-> & c & u & Hc & Hu & Hns)|
                       (-> & k & c & u & g & v & Hk & Hu & Hg & Hv & Hlate)].
    { intros v b. rewrite lookup_empty. split; [done|].
      intros (c' & Hc' & _). by rewrite lookup_nil in Hc'. }
    + left. split; [done|]. exists u. split; [|done].
      apply list_elem_of_lookup in Hc as [i Hi].
      by eapply (conn_comps_dom set_order set_order_perm).
    + right. split; [done|]. exists g, u, v. split_and!; [done| |done|].
      * by eapply (conn_comps_dom set_order set_order_perm).
      * intros Hconn.
        apply (conn_comps_same set_order set_order_perm fuser c u v Hwf) in Hconn;
          [|by eapply list_elem_of_lookup_2|done].
        specialize (Hlate k c Hk Hconn). lia.
Qed.

(** X8.  What [collapse_fused_graph] can raise, called on graphs: a
    TypeError, when a node of the fused graph is not a string and so cannot
    be a keyword of [dict.update]; or a KeyError, when a source graph has an
    edge from a node of the fused graph to a node that is not in the same
    component. *)
Theorem collapse_raises_only fuser gs collapsed col' e :
  graph_wf fuser →
  collapse_fused_graph set_order is_str fuser (PyGraph <$> gs) collapsed
  = (col', Raise e) →
  (e = TypeError ∧ ∃ u, u ∈ dom fuser ∧ is_str u = false) ∨
  (e = KeyError ∧
   ∃ g u v, g ∈ gs ∧ u ∈ dom fuser ∧ v ∈ nx_adj g u ∧ ¬ connected fuser u v).
Proof.
  intros Hwf Hcall.
  pose proof (collapse_fused_graph_graphs_spec fuser gs collapsed Hwf) as Hspec.
  by rewrite Hcall in Hspec.
Qed.

(** C2.  An undirected edge of a source graph between two nodes that lie in
    different components of the fused graph draws no edge between the two
    component ids: it makes the collapse raise KeyError, in both modules,
    since [node2fuse_id] is read for the neighbour before the component of
    the neighbour has been numbered. *)
Theorem collapse_cross_edge_raises fuser gs collapsed g u v :
  graph_wf fuser →
  (∀ w, w ∈ dom fuser → is_str w = true) →
  g ∈ gs → u ∈ dom fuser →
  v ∈ nx_adj g u → u ∈ nx_adj g v →
  ¬ connected fuser u v →
  (collapse_fused_graph set_order is_str fuser (PyGraph <$> gs) collapsed).2
  = Raise KeyError ∧
  (NetworkFuser_collapse set_order is_str fuser (PyGraph <$> gs) collapsed).2
  = Raise KeyError.
Proof.
  intros Hwf Hstr Hg Hu Hv Hvu Hnc.
  assert ((collapse_fused_graph set_order is_str fuser (PyGraph <$> gs)
             collapsed).2 = Raise KeyError) as Hfun.
  { pose proof (collapse_fused_graph_graphs_spec fuser gs collapsed Hwf)
      as Hspec.
    destruct (collapse_fused_graph _ _ _ _ _) as [col' [[id2 n2]|e]] eqn:Hcall;
      cbn in *.
    - exfalso. destruct Hspec as [_ Hin].
      destruct (collapse_fused_graph_maps set_order set_order_perm is_str
                  fuser _ _ _ _ _ Hcall Hwf) as [_ Hn2].
      destruct (Hin g u v Hg Hu Hv) as (i & j & Hi & Hj & Hle).
      pose proof Hj as Hj'. apply Hn2 in Hj' as (cj & Hcj & Hvcj).
      pose proof (conn_comps_dom set_order set_order_perm fuser j cj v Hwf
                    Hcj Hvcj) as Hvd.
      destruct (Hin g v u Hg Hvd Hvu) as (j' & i' & Hj2 & Hi2 & Hle').
      assert (i = j) as ->
        by (rewrite Hi in Hi2; rewrite Hj in Hj2; simplify_eq; lia).
      apply Hn2 in Hi as (ci & Hci & Huci).
      assert (ci = cj) as -> by congruence.
      apply Hnc.
      apply (conn_comps_same set_order set_order_perm fuser cj u v Hwf);
        [by eapply list_elem_of_lookup_2|done..].
    - destruct Hspec as [(_ & w & Hw & Hns)|(-> & _)]; [|done].
      rewrite (Hstr w Hw) in Hns. done. }
  split; [done|].
  rewrite NetworkFuser_collapse_graphs.
  destruct (collapse_fused_graph _ _ _ _ _) as [col' [[id2 n2]|e]];
    cbn in *; congruence.
Qed.

Lemma collapse_fused_graph_returns_iff fuser gs collapsed :
  graph_wf fuser → (∀ g, g ∈ gs → symmetric g) →
  is_ok (collapse_fused_graph set_order is_str fuser (PyGraph <$> gs)
           collapsed).2 = true ↔
  (∀ u, u ∈ dom fuser → is_str u = true) ∧
  (∀ g u v, g ∈ gs → u ∈ dom fuser → v ∈ nx_adj g u → connected fuser u v).
Proof.
  intros Hwf Hsym.
  pose proof (collapse_fused_graph_graphs_spec fuser gs collapsed Hwf) as Hspec.
  destruct (collapse_fused_graph _ _ _ _ _) as [col' [[id2 n2]|e]] eqn:Hcall;
    cbn in *.
  - split; [intros _|done]. destruct Hspec as [Hstr Hin].
    split; [done|]. intros g u v Hg Hu Hv.
    destruct (collapse_fused_graph_maps set_order set_order_perm is_str
                fuser _ _ _ _ _ Hcall Hwf) as [_ Hn2].
    destruct (Hin g u v Hg Hu Hv) as (i & j & Hi & Hj & Hle).
    pose proof Hj as Hj'. apply Hn2 in Hj' as (cj & Hcj & Hvcj).
    assert (v ∈ dom fuser) as Hvd
      by (by eapply (conn_comps_dom set_order set_order_perm)).
    destruct (Hin g v u Hg Hvd (Hsym g Hg u v Hv)) as (j' & i' & Hj2 & Hi2 & Hle').
    assert (i = j) as -> by (rewrite Hi in Hi2; rewrite Hj in Hj2; simplify_eq; lia).
    apply Hn2 in Hi as (ci & Hci & Huci).
    assert (ci = cj) as -> by congruence.
    apply (conn_comps_same set_order set_order_perm fuser cj u v Hwf);
      [by eapply list_elem_of_lookup_2|done..].
  - split; [done|]. intros [Hstr Hin]. exfalso.
    destruct Hspec as [(_ & u & Hu & Hns)|(_ & g & u & v & Hg & Hu & Hv & Hnc)].
    + rewrite Hstr in Hns; done.
    + apply Hnc. by eapply Hin.
Qed.

(** X9.  Called on undirected source graphs, the collapse returns exactly
    when every node of the fused graph is a string and every edge that a
    source graph has at a node of the fused graph joins two nodes of one
    component; in both modules. *)
Theorem collapse_returns_iff fuser gs collapsed :
  graph_wf fuser → (∀ g, g ∈ gs → symmetric g) →
  (is_ok (collapse_fused_graph set_order is_str fuser (PyGraph <$> gs)
            collapsed).2 = true ↔
   (∀ u, u ∈ dom fuser → is_str u = true) ∧
   (∀ g u v, g ∈ gs → u ∈ dom fuser → v ∈ nx_adj g u →
      connected fuser u v)) ∧
  (is_ok (NetworkFuser_collapse set_order is_str fuser (PyGraph <$> gs)
            collapsed).2 = true ↔
   (∀ u, u ∈ dom fuser → is_str u = true) ∧
   (∀ g u v, g ∈ gs → u ∈ dom fuser → v ∈ nx_adj g u →
      connected fuser u v)).
Proof.
  intros Hwf Hsym. split; [by apply collapse_fused_graph_returns_iff|].
  rewrite <- (collapse_fused_graph_returns_iff fuser gs collapsed Hwf Hsym).
  rewrite NetworkFuser_collapse_graphs.
  by destruct (collapse_fused_graph _ _ _ _ _) as [col' [[id2 n2]|e]].
Qed.

Lemma collapse_same_id fuser graphs collapsed col' id2 n2 u v :
  graph_wf fuser →
  collapse_fused_graph set_order is_str fuser graphs collapsed
  = (col', Ok (id2, n2)) →
  u ∈ dom fuser →
  n2 !! u = n2 !! v ↔ connected fuser u v.
Proof.
  intros Hwf Hcall Hu.
  destruct (collapse_fused_graph_maps set_order set_order_perm is_str
              fuser _ _ _ _ _ Hcall Hwf) as [_ Hn2].
  destruct (conn_comps_cover set_order set_order_perm fuser u Hwf Hu)
    as (i & c & Hi & Huc).
  assert (n2 !! u = Some i) as Hui by (apply Hn2; eauto).
  rewrite <- (conn_comps_same set_order set_order_perm fuser c u v Hwf);
    [|by eapply list_elem_of_lookup_2|done].
  rewrite Hui. split.
  - intros Hv. symmetry in Hv. apply Hn2 in Hv as (c' & Hc' & Hvc').
    by simplify_eq.
  - intros Hv. symmetry. apply Hn2. eauto.
Qed.

(** X10.  Two nodes of the fused graph receive the same component id
    exactly when a chain of edges of the fused graph joins them; in both
    modules, and whatever is passed as source graphs. *)
Theorem collapse_same_id_iff_connected fuser graphs collapsed u v :
  graph_wf fuser → u ∈ dom fuser →
  (∀ col' id2 n2,
     collapse_fused_graph set_order is_str fuser graphs collapsed
     = (col', Ok (id2, n2)) →
     n2 !! u = n2 !! v ↔ connected fuser u v) ∧
  (∀ col' n2,
     NetworkFuser_collapse set_order is_str fuser graphs collapsed
     = (col', Ok n2) →
     n2 !! u = n2 !! v ↔ connected fuser u v).
Proof.
  intros Hwf Hu. split.
  - intros col' id2 n2 Hcall. by eapply collapse_same_id.
  - intros col' n2. unfold NetworkFuser_collapse.
    destruct (forallb isinstance_Graph graphs); [|done].
    destruct (collapse_loop _ _ _ _ _ _ _ _) as [c1 [[id2 n2']|e]] eqn:Hloop;
      [|done].
    intros [= _ <-]. by eapply collapse_same_id.
Qed.

Lemma size_map_seq {A} (start : nat) (xs : list A) :
  size (map_seq start xs : gmap nat A) = length xs.
Proof.
  revert start. induction xs as [|x xs IH]; intros start; cbn.
  - apply map_size_empty.
  - rewrite map_size_insert_None; [by rewrite IH|].
    apply lookup_map_seq_None. lia.
Qed.

(** X11.  The component ids are the numbers from 0 up, without a gap; no
    id names an empty set; and the ids follow the sizes of the components,
    a larger id never naming a smaller set. *)
Theorem collapse_ids_by_size fuser graphs collapsed col' id2 n2 :
  graph_wf fuser →
  collapse_fused_graph set_order is_str fuser graphs collapsed
  = (col', Ok (id2, n2)) →
  (∀ i, is_Some (id2 !! i) ↔ i < size id2) ∧
  (∀ i ci, id2 !! i = Some ci → ci ≠ ∅) ∧
  (∀ i j ci cj, id2 !! i = Some ci → id2 !! j = Some cj → i ≤ j →
     size ci ≤ size cj).
Proof.
  intros Hwf Hcall.
  destruct (collapse_fused_graph_maps set_order set_order_perm is_str
              fuser _ _ _ _ _ Hcall Hwf) as [-> _].
  split_and!.
  - intros i. rewrite size_map_seq, lookup_map_seq_0. apply lookup_lt_is_Some.
  - intros i ci. rewrite lookup_map_seq_0. intros Hi.
    destruct (conn_comps_bfs set_order set_order_perm fuser ci Hwf)
      as (s & _ & Hspec); [by eapply list_elem_of_lookup_2|].
    assert (s ∈ ci) by (apply Hspec; apply rtc_refl). set_solver.
  - intros i j ci cj. rewrite !lookup_map_seq_0. apply sorted_by_len_lookup.
Qed.

End collapse_more_theorems.

Section collapse_graph_facts.
Context `{Countable Node}.
Variable set_order : gset Node → list Node.
Variable is_str : Node → bool.
Implicit Types (G fuser : Graph Node) (u v : Node) (c d : gset Node).
Implicit Types (col collapsed : @MultiGraph Node _ _).

(** ** The graph object [collapsed] *)

Lemma mg_wf_add_node (i : nat) col : mg_wf col → mg_wf (mg_add_node i col).
Proof. intros Hwf e He. destruct (Hwf e He). cbn. set_solver. Qed.

Lemma mg_wf_add_edge (i j : nat) col : mg_wf col → mg_wf (mg_add_edge i j col).
Proof.
  intros Hwf e. cbn. intros [He| ->%list_elem_of_singleton]%elem_of_app.
  - destruct (Hwf e He). set_solver.
  - cbn. set_solver.
Qed.

Lemma mg_wf_add_edges_from es col :
  mg_wf col → mg_wf (mg_add_edges_from es col).
Proof.
  revert col. induction es as [|e es IH]; intros col Hwf; [done|].
  cbn. apply IH. by apply mg_wf_add_edge.
Qed.

Lemma mg_wf_add_mapped_edges (i : nat) (n2 : gmap Node nat) nl col :
  mg_wf col → mg_wf (add_mapped_edges i n2 nl col).1.
Proof.
  revert col. induction nl as [|v nl IH]; intros col Hwf; [done|].
  cbn. destruct (n2 !! v); [|done]. apply IH. by apply mg_wf_add_edge.
Qed.

Lemma mg_wf_collapse_loop graphs (i : nat) (comps : list (gset Node))
    id2 n2 col :
  mg_wf col →
  mg_wf (collapse_loop set_order is_str graphs i comps id2 n2 col).1.
Proof.
  revert i id2 n2 col. induction comps as [|c comps IH]; intros i id2 n2 col Hwf.
  - done.
  - cbn [collapse_loop].
    destruct (update_node2fuse_id _ _ _ _ _) as [n2'|]; [|done].
    destruct (scan_nodes _ _ _ _ _) as [[sl nl]|]; [|by apply mg_wf_add_node].
    pose proof (mg_wf_add_mapped_edges i n2' nl (mg_add_node i col)
                  (mg_wf_add_node i col Hwf)) as Hwf1.
    destruct (add_mapped_edges _ _ _ _) as [col1 [[]|]]; [|done].
    apply IH. by apply mg_wf_add_edges_from.
Qed.

Lemma add_mapped_edges_nodes (i : nat) (n2 : gmap Node nat) nl col :
  (∀ v j, n2 !! v = Some j → j ≤ i) →
  ∀ x, x ∈ mg_nodes (add_mapped_edges i n2 nl col).1 →
       x ∈ mg_nodes col ∨ x ≤ i.
Proof.
  intros Hn2. revert col. induction nl as [|v nl IH]; intros col x; cbn; [auto|].
  destruct (n2 !! v) as [j|] eqn:Hv; [|auto].
  intros [Hx|Hx]%IH; [|auto]. cbn in Hx. apply Hn2 in Hv. set_solver by lia.
Qed.

Lemma mg_add_edges_from_replicate_nodes (n i : nat) col :
  ∀ x, x ∈ mg_nodes (mg_add_edges_from (replicate n (i, i)) col) →
       x ∈ mg_nodes col ∨ x = i.
Proof.
  revert col. induction n as [|n IH]; intros col x; cbn; [auto|].
  intros [Hx|Hx]%IH; [|auto]. cbn in Hx. set_solver.
Qed.

(* The nodes of [collapsed] after the loop: the ones it had, and ids. *)
Lemma collapse_loop_nodes graphs (i : nat) (comps : list (gset Node))
    id2 n2 col :
  (∀ v j, n2 !! v = Some j → j < i) →
  (∀ x, x ∈ mg_nodes (collapse_loop set_order is_str graphs i comps
                        id2 n2 col).1 →
        x ∈ mg_nodes col ∨ x < i + length comps) ∧
  (is_ok (collapse_loop set_order is_str graphs i comps id2 n2 col).2 = true →
   ∀ x, i ≤ x < i + length comps →
        x ∈ mg_nodes (collapse_loop set_order is_str graphs i comps
                        id2 n2 col).1).
Proof.
  revert i id2 n2 col. induction comps as [|c comps IH]; intros i id2 n2 col Hn2.
  - cbn. split; [auto|]. intros _ x ?. lia.
  - cbn [collapse_loop length]. unfold update_node2fuse_id.
    destruct (forallb is_str (set_order c)); [|cbn; split; [auto|done]].
    assert (∀ v j, (gset_to_gmap i c ∪ n2) !! v = Some j → j < S i) as Hn2'.
    { intros v j [[_ <-]%lookup_gset_to_gmap_Some|[_ Hj]]%lookup_union_Some_raw;
        [lia|]. apply Hn2 in Hj. lia. }
    destruct (scan_nodes _ _ _ _ _) as [[sl nl]|].
    2:{ cbn. split; [|done]. intros x Hx. set_solver by lia. }
    pose proof (add_mapped_edges_nodes i (gset_to_gmap i c ∪ n2) nl
                  (mg_add_node i col)) as Hup.
    pose proof (add_mapped_edges_prefix i (gset_to_gmap i c ∪ n2) nl
                  (mg_add_node i col)) as [_ Hlow].
    destruct (add_mapped_edges _ _ _ _) as [col1 [[]|]]; cbn in Hup, Hlow.
    2:{ cbn. split; [|done]. intros x [Hx|Hx]%Hup; [set_solver by lia|lia|].
        intros v j Hj%Hn2'. lia. }
    destruct (IH (S i) (<[i:=c]> id2) (gset_to_gmap i c ∪ n2)
      (mg_add_edges_from (replicate (length sl) (i, i)) col1) Hn2')
      as [IHup IHlow].
    destruct (collapse_loop_prefix set_order is_str graphs (S i) comps
      (<[i:=c]> id2) (gset_to_gmap i c ∪ n2)
      (mg_add_edges_from (replicate (length sl) (i, i)) col1)) as [_ Hmono].
    split.
    + intros x [Hx|Hx]%IHup; [|lia].
      apply mg_add_edges_from_replicate_nodes in Hx as [Hx| ->]; [|lia].
      apply Hup in Hx as [Hx|Hx]; [set_solver by lia|lia|].
      intros v j Hj%Hn2'. lia.
    + intros Hok x Hx. destruct (decide (x = i)) as [->|Hne].
      * apply Hmono, mg_add_edges_from_nodes, Hlow. set_solver.
      * apply IHlow; [done|lia].
Qed.

(** X13.  The collapse only adds to the graph it is given in [collapsed]:
    the edges that graph had stay its first edges, and its nodes stay nodes,
    whether the call returns or raises; in both modules. *)
Theorem collapse_only_adds fuser graphs collapsed :
  (mg_edges collapsed `prefix_of`
     mg_edges (collapse_fused_graph set_order is_str fuser graphs collapsed).1 ∧
   mg_nodes collapsed ⊆
     mg_nodes (collapse_fused_graph set_order is_str fuser graphs collapsed).1) ∧
  (mg_edges collapsed `prefix_of`
     mg_edges (NetworkFuser_collapse set_order is_str fuser graphs collapsed).1 ∧
   mg_nodes collapsed ⊆
     mg_nodes (NetworkFuser_collapse set_order is_str fuser graphs collapsed).1).
Proof.
  split; [apply collapse_loop_prefix|].
  unfold NetworkFuser_collapse.
  destruct (forallb isinstance_Graph graphs); [|done].
  pose proof (collapse_loop_prefix set_order is_str graphs 0
    (sorted_by_len (nx_connected_component_subgraphs set_order fuser))
    ∅ ∅ collapsed) as Hpre.
  by destruct (collapse_loop _ _ _ _ _ _ _ _) as [c1 [[id2 n2']|e]].
Qed.

End collapse_graph_facts.

Section collapse_result_facts.
Context `{Countable Node}.
Variable set_order : gset Node → list Node.
Hypothesis set_order_perm : ∀ X, set_order X ≡ₚ elements X.
Variable is_str : Node → bool.
Implicit Types (G fuser : Graph Node) (u v : Node) (c d : gset Node).
Implicit Types (gs : list (Graph Node)).
Implicit Types (col collapsed : @MultiGraph Node _ _).

Lemma entries_lookup_total_None gs (comps : list (gset Node)) (a b : nat) :
  comps !! a = None ∨ comps !! b = None →
  entries gs (comps !!! a) (comps !!! b) = 0.
Proof.
  intros Hnone.
  destruct (decide (0 < entries gs (comps !!! a) (comps !!! b))) as [Hpos|];
    [|lia].
  apply entries_pos in Hpos as (u & g & v & Hu & _ & _ & Hv).
  rewrite !list_lookup_total_alt in Hu, Hv.
  destruct Hnone as [Hn|Hn]; rewrite Hn in *; cbn in *; set_solver.
Qed.

Lemma collapse_no_cross_edges fuser gs collapsed col' id2 n2 (i j : nat) :
  graph_wf fuser → (∀ g, g ∈ gs → symmetric g) →
  collapse_fused_graph set_order is_str fuser (PyGraph <$> gs) collapsed
  = (col', Ok (id2, n2)) →
  i ≠ j →
  mg_number_of_edges col' i j = mg_number_of_edges collapsed i j.
Proof.
  intros Hwf Hsym Hcall Hij.
  destruct (proj1 (collapse_fused_graph_returns_iff set_order set_order_perm
    is_str fuser gs collapsed Hwf Hsym)) as [_ Hin]; [by rewrite Hcall|].
  destruct (conn_comps_partition set_order set_order_perm fuser Hwf)
    as [_ Hdis].
  assert (∀ a b : nat, a ≠ b →
    entries gs
      (sorted_by_len (nx_connected_component_subgraphs set_order fuser) !!! a)
      (sorted_by_len (nx_connected_component_subgraphs set_order fuser) !!! b)
    = 0) as Hzero.
  { revert Hdis.
    generalize (conn_comps_dom set_order set_order_perm fuser).
    generalize (conn_comps_same set_order set_order_perm fuser).
    generalize (sorted_by_len (nx_connected_component_subgraphs set_order fuser)).
    intros comps Hsame Hdom Hdis a b Hab.
    destruct (comps !! a) as [ca|] eqn:Ha;
      [|apply entries_lookup_total_None; by left].
    destruct (comps !! b) as [cb|] eqn:Hb;
      [|apply entries_lookup_total_None; by right].
    rewrite (list_lookup_total_correct _ _ _ Ha).
    rewrite (list_lookup_total_correct _ _ _ Hb).
    destruct (decide (0 < entries gs ca cb)) as [Hpos|]; [|lia].
    apply entries_pos in Hpos as (u & g & v & Hu & Hg & Hv & Hvb).
    pose proof (Hdom a ca u Hwf Ha Hu) as Hud.
    pose proof (Hin g u v Hg Hud Hv) as Hconn.
    apply (Hsame ca u v Hwf) in Hconn;
      [|by eapply list_elem_of_lookup_2|done].
    destruct Hab. by eapply (disjoint_list_lookup _ a b ca cb v). }
  unfold collapse_fused_graph in Hcall. cbn zeta in Hcall.
  pose proof (collapse_loop_edges set_order set_order_perm is_str gs
    (sorted_by_len (nx_connected_component_subgraphs set_order fuser)) []
    ∅ ∅ collapsed col' id2 n2 Hdis) as Hcount.
  cbn [length app] in Hcount.
  assert (∀ v (b : nat),
    (∅ : gmap Node nat) !! v = Some b ↔
    ∃ c', ([] : list (gset Node)) !! b = Some c' ∧ v ∈ c') as Hempty.
  { intros v b. rewrite lookup_empty. split; [done|].
    intros (c' & Hc' & _). by rewrite lookup_nil in Hc'. }
  specialize (Hcount Hempty Hcall).
  rewrite !mg_number_of_edges_count, !decide_False by done.
  rewrite !Hcount.
  rewrite (Hzero i j), (Hzero j i) by done.
  repeat case_decide; lia.
Qed.

(** X12.  Called on undirected source graphs, a collapse that returns has
    drawn no edge between two different nodes of the collapsed graph: it
    adds self-loops only. *)
Theorem collapse_adds_only_self_loops fuser gs collapsed col' id2 n2 (i j : nat) :
  graph_wf fuser → (∀ g, g ∈ gs → symmetric g) →
  collapse_fused_graph set_order is_str fuser (PyGraph <$> gs) collapsed
  = (col', Ok (id2, n2)) →
  i ≠ j →
  mg_number_of_edges col' i j = mg_number_of_edges collapsed i j.
Proof. apply collapse_no_cross_edges. Qed.

(** X14.  After a collapse that returns, the nodes of the collapsed graph
    are the nodes it had before and the component ids, and nothing else. *)
Theorem collapse_nodes fuser graphs collapsed col' id2 n2 :
  graph_wf fuser →
  collapse_fused_graph set_order is_str fuser graphs collapsed
  = (col', Ok (id2, n2)) →
  mg_nodes col' = mg_nodes collapsed ∪ dom id2.
Proof.
  intros Hwf Hcall.
  destruct (collapse_fused_graph_maps set_order set_order_perm is_str
              fuser _ _ _ _ _ Hcall Hwf) as [-> _].
  unfold collapse_fused_graph in Hcall. cbn zeta in Hcall.
  destruct (collapse_loop_nodes set_order is_str graphs 0
    (sorted_by_len (nx_connected_component_subgraphs set_order fuser))
    ∅ ∅ collapsed) as [Hup Hlow]; [by intros v j; rewrite lookup_empty|].
  destruct (collapse_loop_prefix set_order is_str graphs 0
    (sorted_by_len (nx_connected_component_subgraphs set_order fuser))
    ∅ ∅ collapsed) as [_ Hmono].
  rewrite Hcall in Hup, Hlow, Hmono. cbn in Hup, Hlow, Hmono.
  rewrite dom_seq_L. apply set_eq. intros x.
  rewrite elem_of_union, elem_of_set_seq. split.
  - intros [?|?]%Hup; [by left|right; lia].
  - intros [?|?]; [by apply Hmono|]. apply Hlow; [done|lia].
Qed.

(** X15.  After [NetworkFuser.collapse] returns, the attribute [fused_set]
    of a component id is the set of the nodes that the returned mapping
    sends to that id. *)
Theorem NetworkFuser_collapse_fused_set fuser graphs collapsed col' n2 u (i : nat) :
  graph_wf fuser →
  NetworkFuser_collapse set_order is_str fuser graphs collapsed
  = (col', Ok n2) →
  n2 !! u = Some i →
  ∃ c, mg_fused_set col' !! i = Some c ∧ ∀ v, v ∈ c ↔ n2 !! v = Some i.
Proof.
  intros Hwf. unfold NetworkFuser_collapse.
  destruct (forallb isinstance_Graph graphs); [|done].
  destruct (collapse_loop _ _ _ _ _ _ _ _) as [c1 [[id2 n2']|e]] eqn:Hloop;
    [|done].
  intros [= <- <-] Hu.
  destruct (collapse_fused_graph_maps set_order set_order_perm is_str
              fuser graphs collapsed c1 id2 n2' Hloop Hwf) as [-> Hn2].
  pose proof Hu as Hu'. apply Hn2 in Hu' as (c & Hc & Huc).
  exists c. split.
  - cbn. apply lookup_union_Some_l. by rewrite lookup_map_seq_0.
  - intros v. rewrite Hn2. split; [eauto|].
    intros (c' & Hc' & Hv). by simplify_eq.
Qed.

(** X23.  [NetworkFuser.collapse] raises AssertionError exactly when one of
    the arguments in [graphs] is no graph, and then it has not touched the
    graph given as [collapsed]; no later step of the method raises that
    exception. *)
Theorem NetworkFuser_collapse_asserts fuser (graphs : list (@PyVal Node _ _))
    collapsed :
  ((NetworkFuser_collapse set_order is_str fuser graphs collapsed).2
   = Raise AssertionError
   ↔ ∃ x, x ∈ graphs ∧ isinstance_Graph x = false) ∧
  ((NetworkFuser_collapse set_order is_str fuser graphs collapsed).2
   = Raise AssertionError →
   (NetworkFuser_collapse set_order is_str fuser graphs collapsed).1
   = collapsed).
Proof.
  destruct (NetworkFuser_collapse_precondition set_order set_order_perm
              is_str fuser graphs collapsed) as [Hno Hyes].
  destruct (forallb isinstance_Graph graphs) eqn:Hall.
  - split; [split|]; [by intros ?%Hyes| |by intros ?%Hyes].
    intros (x & Hx & Hnot). exfalso.
    rewrite forallb_forall in Hall.
    rewrite (Hall x) in Hnot; [done|]. by apply list_elem_of_In.
  - rewrite Hno by done. cbn. split; [|done]. split; [intros _|done].
    clear Hno Hyes. induction graphs as [|x graphs IH]; [done|].
    cbn in Hall. apply andb_false_iff in Hall as [Hx|Hrest].
    + exists x. split; [by left|done].
    + destruct (IH Hrest) as (y & Hy & Hnot). exists y. split; [by right|done].
Qed.

End collapse_result_facts.

Section collapse_skip_facts.
Context `{Countable Node}.
Variable set_order : gset Node → list Node.
Hypothesis set_order_perm : ∀ X, set_order X ≡ₚ elements X.
Variable is_str : Node → bool.
Implicit Types (G fuser : Graph Node) (u v : Node) (c d : gset Node).
Implicit Types (x : @PyVal Node _ _) (graphs : list (@PyVal Node _ _)).
Implicit Types (col collapsed : @MultiGraph Node _ _).

Lemma scan_graphs_skip c node graphs1 x graphs2 acc :
  match x with
  | PyGraph g => node ∉ dom g
  | PyList l => node ∉ l
  | PyInt _ => False
  end →
  scan_graphs set_order c node (graphs1 ++ x :: graphs2) acc
  = scan_graphs set_order c node (graphs1 ++ graphs2) acc.
Proof.
  intros Hx. revert acc.
  induction graphs1 as [|[g|l|z] graphs1 IH]; intros acc; cbn.
  - destruct x as [g|l|z]; [..|done]; by rewrite decide_False.
  - case_decide; apply IH.
  - case_decide; [done|apply IH].
  - done.
Qed.

Lemma scan_nodes_skip c graphs1 x graphs2 nodes acc :
  (∀ node, node ∈ nodes →
     match x with
     | PyGraph g => node ∉ dom g
     | PyList l => node ∉ l
     | PyInt _ => False
     end) →
  scan_nodes set_order c (graphs1 ++ x :: graphs2) nodes acc
  = scan_nodes set_order c (graphs1 ++ graphs2) nodes acc.
Proof.
  revert acc. induction nodes as [|node nodes IH]; intros acc Hx; [done|].
  cbn. rewrite scan_graphs_skip by (apply Hx; by left).
  destruct (scan_graphs _ _ _ _ _); [|done]. cbn.
  apply IH. intros n Hn. apply Hx. by right.
Qed.

Lemma collapse_loop_skip graphs1 x graphs2 (i : nat)
    (comps : list (gset Node)) id2 n2 col :
  (∀ c u, c ∈ comps → u ∈ c →
     match x with
     | PyGraph g => u ∉ dom g
     | PyList l => u ∉ l
     | PyInt _ => False
     end) →
  collapse_loop set_order is_str (graphs1 ++ x :: graphs2) i comps id2 n2 col
  = collapse_loop set_order is_str (graphs1 ++ graphs2) i comps id2 n2 col.
Proof.
  revert i id2 n2 col. induction comps as [|c comps IH]; intros i id2 n2 col Hx;
    [done|].
  cbn [collapse_loop].
  destruct (update_node2fuse_id _ _ _ _ _) as [n2'|]; [|done].
  rewrite scan_nodes_skip.
  2:{ intros u Hu%(elem_of_set_order set_order set_order_perm).
      apply (Hx c u); [by left|done]. }
  destruct (scan_nodes _ _ _ _ _) as [[sl nl]|]; [|done].
  destruct (add_mapped_edges _ _ _ _) as [col1 [[]|]]; [|done].
  apply IH. intros c' u Hc' Hu. apply (Hx c' u); [by right|done].
Qed.

(** X16.  An argument that holds no node of the fused graph changes nothing
    in [collapse_fused_graph]: a source graph that shares no node with the
    fused graph, and also a list, which is no graph, when none of its
    elements is a node of the fused graph. *)
Theorem collapse_skips_strangers fuser graphs1 x graphs2 collapsed :
  graph_wf fuser →
  match x with
  | PyGraph g => ∀ u, u ∈ dom fuser → u ∉ dom g
  | PyList l => ∀ u, u ∈ dom fuser → u ∉ l
  | PyInt _ => False
  end →
  collapse_fused_graph set_order is_str fuser (graphs1 ++ x :: graphs2)
    collapsed
  = collapse_fused_graph set_order is_str fuser (graphs1 ++ graphs2)
      collapsed.
Proof.
  intros Hwf Hx. unfold collapse_fused_graph. cbn zeta.
  apply collapse_loop_skip. intros c u Hc Hu.
  apply list_elem_of_lookup in Hc as [i Hi].
  pose proof (conn_comps_dom set_order set_order_perm fuser i c u Hwf Hi Hu)
    as Hud.
  destruct x as [g|l|z]; [by apply Hx..|done].
Qed.

End collapse_skip_facts.

(** * From [fuse] to the collapse *)

Section pipeline_facts.
Context `{Countable Node}.
Context {Threshold Kwargs : Type}.
Variable set_order : gset Node → list Node.
Hypothesis set_order_perm : ∀ X, set_order X ≡ₚ elements X.
Variable is_str : Node → bool.
Implicit Types (simfn : @Oracle Node _ _ Threshold Kwargs).
Implicit Types (G : Graph Node) (u v : Node).
Implicit Types (collapsed : @MultiGraph Node _ _).

Lemma fuse_dom_universe t simfn graphs verbose kwargs out G u :
  fuse set_order t simfn graphs verbose kwargs = (out, Ok G) →
  u ∈ vertex_union graphs → u ∈ dom G.
Proof.
  intros [out0 Hloop]%fuse_ok_inv Hu.
  apply (fuse_loop_dom _ _ _ _ _ _ _ _ _ _ _ Hloop). left.
  by apply (fuse_init_dom set_order set_order_perm).
Qed.

Lemma fuse_reports_edge t simfn graphs verbose kwargs out G u v :
  fuse set_order t simfn graphs verbose kwargs = (out, Ok G) →
  u ∈ vertex_union graphs →
  reports simfn (vertex_union graphs) t kwargs u v →
  nx_has_edge G u v.
Proof.
  intros [out0 Hloop]%fuse_ok_inv Hu Hr.
  apply (fuse_loop_adj _ _ _ _ _ _ _ _ _ _ _ Hloop). right. left.
  split; [|done]. by apply (elem_of_set_order set_order set_order_perm).
Qed.

(** X17.  Collapsing the graph that [fuse] returned gives a node and every
    analog that the oracle reported for it the same component id. *)
Theorem fuse_collapse_analogs_share_id t simfn graphs verbose kwargs out G
    sources collapsed col' id2 n2 u v :
  fuse set_order t simfn graphs verbose kwargs = (out, Ok G) →
  collapse_fused_graph set_order is_str G sources collapsed
  = (col', Ok (id2, n2)) →
  u ∈ vertex_union graphs →
  reports simfn (vertex_union graphs) t kwargs u v →
  ∃ i, n2 !! u = Some i ∧ n2 !! v = Some i.
Proof.
  intros Hfuse Hcall Hu Hr.
  pose proof (fuse_graph_wf set_order _ _ _ _ _ _ _ Hfuse) as Hwf.
  pose proof (fuse_dom_universe _ _ _ _ _ _ _ _ Hfuse Hu) as Hud.
  pose proof (fuse_reports_edge _ _ _ _ _ _ _ _ _ Hfuse Hu Hr) as Huv.
  destruct (collapse_fused_graph_maps set_order set_order_perm is_str
              G _ _ _ _ _ Hcall Hwf) as [_ Hn2].
  destruct (conn_comps_cover set_order set_order_perm G u Hwf Hud)
    as (i & c & Hi & Huc).
  exists i. split; [apply Hn2; eauto|].
  apply Hn2. exists c. split; [done|].
  apply (conn_comps_same set_order set_order_perm G c u v Hwf);
    [by eapply list_elem_of_lookup_2|done|].
  by apply rtc_once.
Qed.

(** X18.  When the graph that [fuse] returned is collapsed over the same
    undirected source graphs, the call returns only if the two ends of
    every edge of every source graph were fused into one node: they have
    the same component id. *)
Theorem fuse_collapse_edges_within t simfn graphs verbose kwargs out G
    collapsed col' id2 n2 g u v :
  fuse set_order t simfn graphs verbose kwargs = (out, Ok G) →
  (∀ g, g ∈ graphs → symmetric g) →
  collapse_fused_graph set_order is_str G (PyGraph <$> graphs) collapsed
  = (col', Ok (id2, n2)) →
  g ∈ graphs → v ∈ nx_adj g u →
  ∃ i, n2 !! u = Some i ∧ n2 !! v = Some i.
Proof.
  intros Hfuse Hsym Hcall Hg Hv.
  pose proof (fuse_graph_wf set_order _ _ _ _ _ _ _ Hfuse) as Hwf.
  assert (u ∈ dom G) as Hud.
  { apply (fuse_dom_universe _ _ _ _ _ _ _ _ Hfuse).
    unfold vertex_union. apply elem_of_union_list. exists (dom g).
    split; [apply list_elem_of_fmap; eauto|].
    apply elem_of_dom. unfold nx_adj in Hv.
    destruct (g !! u); [done|]. cbn in Hv. set_solver. }
  destruct (proj1 (collapse_fused_graph_returns_iff set_order set_order_perm
    is_str G graphs collapsed Hwf Hsym)) as [_ Hin]; [by rewrite Hcall|].
  pose proof (Hin g u v Hg Hud Hv) as Hconn.
  apply (collapse_same_id set_order set_order_perm is_str G _ collapsed
           col' id2 n2 u v Hwf Hcall Hud) in Hconn.
  destruct (collapse_fused_graph_maps set_order set_order_perm is_str
              G _ _ _ _ _ Hcall Hwf) as [_ Hn2].
  destruct (conn_comps_cover set_order set_order_perm G u Hwf Hud)
    as (i & c & Hi & Huc).
  assert (n2 !! u = Some i) as Hui by (apply Hn2; eauto).
  exists i. split; [done|]. by rewrite <- Hconn.
Qed.

End pipeline_facts.

(** * Properties of [convert_graph] *)

Section convert_basic_facts.
Context `{Countable Node}.
Implicit Types (G : @MultiGraph Node _ _) (D : Graph nat).
Implicit Types (a b n x : nat) (es : list (nat * nat)).

Lemma nx_adj_di_add_edge u v D x :
  nx_adj (di_add_edge u v D) x
  = nx_adj D x ∪ (if decide (x = u) then {[v]} else ∅).
Proof.
  unfold di_add_edge. cbn zeta. unfold nx_adj at 1.
  destruct (decide (x = u)) as [->|Hne].
  - rewrite lookup_insert_eq. cbn. by rewrite !nx_adj_add_node.
  - rewrite lookup_insert_ne by done.
    change (nx_adj (nx_add_node v (nx_add_node u D)) x = nx_adj D x ∪ ∅).
    rewrite !nx_adj_add_node. set_solver.
Qed.

Lemma dom_di_add_edge u v D : dom (di_add_edge u v D) = {[u; v]} ∪ dom D.
Proof.
  unfold di_add_edge. cbn zeta. rewrite dom_insert_L, !dom_nx_add_node.
  set_solver.
Qed.

Lemma di_add_edges_from_cons a b es D :
  di_add_edges_from ((a, b) :: es) D = di_add_edges_from es (di_add_edge a b D).
Proof. done. Qed.

Lemma elem_of_nx_adj_di_add_edges_from es D a b :
  b ∈ nx_adj (di_add_edges_from es D) a ↔ b ∈ nx_adj D a ∨ (a, b) ∈ es.
Proof.
  revert D. induction es as [|[u v] es IH]; intros D.
  - cbn. set_solver.
  - rewrite di_add_edges_from_cons, IH, nx_adj_di_add_edge, elem_of_cons.
    case_decide; set_solver.
Qed.

Lemma elem_of_dom_di_add_edges_from es D x :
  x ∈ dom (di_add_edges_from es D)
  ↔ x ∈ dom D ∨ ∃ e, e ∈ es ∧ (x = e.1 ∨ x = e.2).
Proof.
  revert D. induction es as [|[u v] es IH]; intros D.
  - cbn. set_solver.
  - rewrite di_add_edges_from_cons, IH, dom_di_add_edge. split.
    + intros [[Hx|Hx]%elem_of_union|(e & He & Hx)]; [|by left|].
      * right. exists (u, v). split; [by left|]. set_solver.
      * right. exists e. split; [by right|done].
    + intros [Hx|(e & [->|He]%elem_of_cons & Hx)].
      * left. set_solver.
      * left. cbn in Hx. set_solver.
      * right. eauto.
Qed.

Lemma mg_number_of_edges_pos G a b :
  0 < mg_number_of_edges G a b ↔ (a, b) ∈ mg_edges G ∨ (b, a) ∈ mg_edges G.
Proof.
  unfold mg_number_of_edges. split.
  - intros Hpos. destruct (filter _ _) as [|e l] eqn:Hf; [cbn in Hpos; lia|].
    assert (e ∈ filter (λ e, e = (a, b) ∨ e = (b, a)) (mg_edges G)) as He
      by (rewrite Hf; by left).
    apply list_elem_of_filter in He as [[-> | ->] He]; auto.
  - intros Hin.
    assert (∃ e, e ∈ filter (λ e, e = (a, b) ∨ e = (b, a)) (mg_edges G))
      as [e He].
    { destruct Hin as [Hin|Hin]; eexists; apply list_elem_of_filter;
        (split; [|exact Hin]); auto. }
    destruct (filter _ _); [by apply elem_of_nil in He|cbn; lia].
Qed.

Lemma mg_number_of_edges_sym G a b :
  mg_number_of_edges G a b = mg_number_of_edges G b a.
Proof.
  unfold mg_number_of_edges. f_equal. apply list_filter_iff. intros e. tauto.
Qed.

Lemma elem_of_mg_adj G a b :
  b ∈ mg_adj G a ↔ 0 < mg_number_of_edges G a b.
Proof.
  rewrite mg_number_of_edges_pos. unfold mg_adj.
  rewrite elem_of_list_to_set, list_elem_of_bind. split.
  - intros ([u v] & Hb & He). cbn in Hb.
    apply elem_of_app in Hb as [Hb|Hb]; case_decide; subst;
      try (by apply elem_of_nil in Hb);
      apply list_elem_of_singleton in Hb as ->; auto.
  - intros [He|He]; eexists; (split; [|exact He]); cbn;
      repeat case_decide; set_solver.
Qed.

End convert_basic_facts.

Section convert_order_facts.
Context `{Countable Node}.
Variable dict_order : gset nat → list nat.
Implicit Types (G : @MultiGraph Node _ _) (D : Graph nat).
Implicit Types (a b n x : nat).

(** X21.  Converting into a graph that is already populated adds to it: the
    arcs and nodes of the result are those of [Gprime] together with those
    of the conversion into a new DiGraph.  The default DiGraph is one
    object for all calls, so with it the result holds the arcs of every
    earlier conversion. *)
Theorem convert_graph_adds G D a b :
  (nx_has_edge (convert_graph dict_order G D) a b
   ↔ nx_has_edge D a b ∨ nx_has_edge (convert_graph dict_order G ∅) a b) ∧
  dom (convert_graph dict_order G D)
  = dom D ∪ dom (convert_graph dict_order G ∅).
Proof.
  unfold convert_graph, nx_has_edge. split.
  - rewrite !elem_of_nx_adj_di_add_edges_from, nx_adj_empty. set_solver.
  - apply set_eq. intros x.
    rewrite elem_of_union, !elem_of_dom_di_add_edges_from, dom_empty_L.
    set_solver.
Qed.

End convert_order_facts.

Section convert_facts.
Context `{Countable Node}.
Variable dict_order : gset nat → list nat.
Hypothesis dict_order_perm : ∀ X, dict_order X ≡ₚ elements X.
Implicit Types (G : @MultiGraph Node _ _) (D : Graph nat).
Implicit Types (a b n x : nat) (es : list (nat * nat)).

Lemma elem_of_dict_order X x : x ∈ dict_order X ↔ x ∈ X.
Proof. by rewrite dict_order_perm, elem_of_elements. Qed.

(* An edge is reported from the first of its ends that is visited. *)
Lemma elem_of_mg_edges_from G nodes (seen : gset nat) a b :
  (a, b) ∈ mg_edges_from dict_order G nodes seen ↔
  ∃ l1 l2, nodes = l1 ++ a :: l2 ∧ (b ∉ seen) ∧ (b ∉ l1) ∧
           0 < mg_number_of_edges G a b.
Proof.
  revert seen. induction nodes as [|n nodes IH]; intros seen.
  - cbn. split; [by intros ?%elem_of_nil|].
    intros (l1 & l2 & Hnil & _). by destruct l1.
  - cbn [mg_edges_from]. rewrite elem_of_app, IH, list_elem_of_bind. split.
    + intros [(nbr & Hin & Hnbr)|(l1 & l2 & -> & Hs & Hl1 & Hpos)].
      * case_decide as Hseen; [by apply elem_of_nil in Hin|].
        apply elem_of_replicate in Hin as [[= -> ->] Hn].
        exists [], nodes. split_and!; [done|done|by intros ?%elem_of_nil|lia].
      * exists (n :: l1), l2. split_and!; [done|set_solver| |done].
        intros [->|?]%elem_of_cons; [set_solver|done].
    + intros (l1 & l2 & Hnodes & Hs & Hl1 & Hpos).
      destruct l1 as [|n' l1]; cbn in Hnodes; injection Hnodes as -> ->.
      * left. exists b. split.
        -- rewrite decide_False by done. apply elem_of_replicate.
           split; [done|lia].
        -- by apply elem_of_dict_order, elem_of_mg_adj.
      * right. exists l1, l2. split_and!; [done| |set_solver|done].
        set_solver.
Qed.

Lemma elem_of_mg_edges_list G a b :
  (a, b) ∈ mg_edges_list dict_order G ↔
  ∃ l1 l2, dict_order (mg_nodes G) = l1 ++ a :: l2 ∧ (b ∉ l1) ∧
           0 < mg_number_of_edges G a b.
Proof.
  unfold mg_edges_list. rewrite elem_of_mg_edges_from.
  split; intros (l1 & l2 & ?); exists l1, l2; set_solver.
Qed.

(* Of two ends of an edge, one comes first in the walk over the nodes. *)
Lemma mg_edges_list_some_direction G a b :
  mg_wf G → 0 < mg_number_of_edges G a b →
  (a, b) ∈ mg_edges_list dict_order G ∨ (b, a) ∈ mg_edges_list dict_order G.
Proof.
  intros Hwf Hpos.
  assert (a ∈ mg_nodes G ∧ b ∈ mg_nodes G) as [Ha Hb].
  { apply mg_number_of_edges_pos in Hpos as [He|He];
      destruct (Hwf _ He); cbn in *; done. }
  apply elem_of_dict_order, list_elem_of_split in Ha as (l1 & l2 & Hsplit).
  destruct (decide (b ∈ l1)) as [Hin|Hnot].
  - right. apply list_elem_of_split in Hin as (k1 & k2 & ->).
    assert (NoDup (dict_order (mg_nodes G))) as Hnd
      by (rewrite dict_order_perm; apply NoDup_elements).
    apply elem_of_mg_edges_list. exists k1, (k2 ++ a :: l2).
    split_and!; [by rewrite Hsplit, <- app_assoc| |by rewrite mg_number_of_edges_sym].
    rewrite Hsplit, <- app_assoc in Hnd.
    apply NoDup_app in Hnd as (_ & Hdisj & _).
    intros Hak. apply (Hdisj a Hak). set_solver.
  - left. apply elem_of_mg_edges_list. eauto 6.
Qed.

Lemma mg_edges_list_one_direction G a b :
  (a, b) ∈ mg_edges_list dict_order G → (b, a) ∈ mg_edges_list dict_order G →
  a = b.
Proof.
  intros (l1 & l2 & Hs1 & Hb & _)%elem_of_mg_edges_list
         (k1 & k2 & Hs2 & Ha & _)%elem_of_mg_edges_list.
  rewrite Hs1 in Hs2.
  destruct (Nat.lt_trichotomy (length l1) (length k1)) as [Hlt|[Heq|Hgt]].
  - exfalso. apply Ha.
    assert ((k1 ++ b :: k2) !! length l1 = Some a) as Hlook
      by (rewrite <- Hs2; by apply list_lookup_middle).
    rewrite lookup_app_l in Hlook by done. by eapply list_elem_of_lookup_2.
  - assert ((l1 ++ a :: l2) !! length l1 = Some a) as H1
      by (by apply list_lookup_middle).
    assert ((k1 ++ b :: k2) !! length l1 = Some b) as H2
      by (by apply list_lookup_middle).
    rewrite Hs2 in H1. congruence.
  - exfalso. apply Hb.
    assert ((l1 ++ a :: l2) !! length k1 = Some b) as Hlook
      by (rewrite Hs2; by apply list_lookup_middle).
    rewrite lookup_app_l in Hlook by done. by eapply list_elem_of_lookup_2.
Qed.

(** X19.  [convert_graph] into a new DiGraph draws one arc for every pair
    of nodes that the multigraph joins, however many parallel edges join
    them: between two nodes there is an arc, in one direction or the other,
    exactly when the multigraph has an edge between them; and never in both
    directions. *)
Theorem convert_graph_one_arc_per_pair G a b :
  mg_wf G →
  (nx_has_edge (convert_graph dict_order G ∅) a b ∨
   nx_has_edge (convert_graph dict_order G ∅) b a
   ↔ 0 < mg_number_of_edges G a b) ∧
  (nx_has_edge (convert_graph dict_order G ∅) a b →
   nx_has_edge (convert_graph dict_order G ∅) b a → a = b).
Proof.
  intros Hwf. unfold convert_graph, nx_has_edge.
  rewrite !elem_of_nx_adj_di_add_edges_from, !nx_adj_empty. split.
  - split.
    + intros [[?|Hab]|[?|Hba]]; [set_solver| |set_solver|].
      * by apply elem_of_mg_edges_list in Hab as (_ & _ & _ & _ & ?).
      * apply elem_of_mg_edges_list in Hba as (_ & _ & _ & _ & ?).
        by rewrite mg_number_of_edges_sym.
    + intros Hpos.
      destruct (mg_edges_list_some_direction G a b Hwf Hpos); auto.
  - intros [?|Hab] [?|Hba]; [set_solver..|].
    by apply mg_edges_list_one_direction with G.
Qed.

(** X20.  The nodes of the converted graph are the nodes of the multigraph
    that have an edge: a node without any edge is lost in the conversion. *)
Theorem convert_graph_nodes G x :
  mg_wf G →
  x ∈ dom (convert_graph dict_order G ∅)
  ↔ ∃ y, 0 < mg_number_of_edges G x y.
Proof.
  intros Hwf. unfold convert_graph.
  rewrite elem_of_dom_di_add_edges_from, dom_empty_L. split.
  - intros [?|([a b] & He & Hx)]; [set_solver|]. cbn in Hx.
    apply elem_of_mg_edges_list in He as (_ & _ & _ & _ & Hpos).
    destruct Hx as [-> | ->]; [eauto|].
    exists a. by rewrite mg_number_of_edges_sym.
  - intros [y Hpos]. right.
    destruct (mg_edges_list_some_direction G x y Hwf Hpos);
      [exists (x, y)|exists (y, x)]; cbn; auto.
Qed.

End convert_facts.

(** * From the collapse to the converted graph *)

Section collapse_convert_facts.
Context `{Countable Node}.
Variable set_order : gset Node → list Node.
Hypothesis set_order_perm : ∀ X, set_order X ≡ₚ elements X.
Variable is_str : Node → bool.
Variable dict_order : gset nat → list nat.
Hypothesis dict_order_perm : ∀ X, dict_order X ≡ₚ elements X.
Implicit Types (fuser : Graph Node) (gs : list (Graph Node)).

Lemma mg_wf_empty : mg_wf (mg_empty : @MultiGraph Node _ _).
Proof. by intros e ?%elem_of_nil. Qed.

(** X22.  Collapsing over undirected source graphs into a new multigraph
    and converting the result into a new DiGraph leaves self-loops only:
    the converted graph has an arc from [a] to [b] exactly when [a] and [b]
    are the same component id and a source graph has an edge inside that
    component. *)
Theorem collapse_convert_only_self_loops fuser gs col' id2 n2 (a b : nat) :
  graph_wf fuser → (∀ g, g ∈ gs → symmetric g) →
  collapse_fused_graph set_order is_str fuser (PyGraph <$> gs) mg_empty
  = (col', Ok (id2, n2)) →
  nx_has_edge (convert_graph dict_order col' ∅) a b
  ↔ a = b ∧ ∃ ca, id2 !! a = Some ca ∧ 0 < entries gs ca ca.
Proof.
  intros Hwf Hsym Hcall.
  assert (mg_wf col') as Hwf'.
  { pose proof (mg_wf_collapse_loop set_order is_str (PyGraph <$> gs) 0
      (sorted_by_len (nx_connected_component_subgraphs set_order fuser))
      ∅ ∅ mg_empty mg_wf_empty) as Hm.
    unfold collapse_fused_graph in Hcall. cbn zeta in Hcall.
    by rewrite Hcall in Hm. }
  assert (∀ i, mg_number_of_edges col' i i
               = 2 * entries gs (default ∅ (id2 !! i)) (default ∅ (id2 !! i)))
    as Hloops.
  { intros i.
    destruct (collapse_fused_graph_maps set_order set_order_perm is_str
                fuser _ _ _ _ _ Hcall Hwf) as [Hid2 _].
    unfold collapse_fused_graph in Hcall. cbn zeta in Hcall.
    destruct (conn_comps_partition set_order set_order_perm fuser Hwf)
      as [_ Hdis].
    pose proof (collapse_loop_edges set_order set_order_perm is_str gs
      (sorted_by_len (nx_connected_component_subgraphs set_order fuser)) []
      ∅ ∅ mg_empty col' id2 n2 Hdis) as Hcount.
    cbn [length app] in Hcount.
    rewrite mg_number_of_edges_count, decide_True by done.
    rewrite Hcount; [|intros v j; rewrite lookup_empty; split; [done|];
      intros (c' & Hc' & _); by rewrite lookup_nil in Hc'|done].
    rewrite !decide_True by (done || lia). cbn [mg_edges mg_empty filter length].
    rewrite Hid2, lookup_map_seq_0, list_lookup_total_alt.
    cbn. lia. }
  unfold convert_graph, nx_has_edge.
  rewrite elem_of_nx_adj_di_add_edges_from, nx_adj_empty. split.
  - intros [?|Hab]; [set_solver|].
    apply (elem_of_mg_edges_list dict_order dict_order_perm) in Hab
      as (_ & _ & _ & _ & Hpos).
    destruct (decide (a = b)) as [<-|Hne].
    + split; [done|]. rewrite Hloops in Hpos.
      destruct (id2 !! a) as [ca|]; [exists ca; split; [done|cbn in Hpos; lia]|].
      cbn in Hpos. unfold entries in Hpos. rewrite elements_empty in Hpos.
      cbn in Hpos. lia.
    + rewrite (collapse_no_cross_edges set_order set_order_perm is_str
                 fuser gs mg_empty col' id2 n2 a b Hwf Hsym Hcall Hne) in Hpos.
      cbn in Hpos. lia.
  - intros [<- (ca & Hca & Hpos)]. right.
    destruct (mg_edges_list_some_direction dict_order dict_order_perm col' a a
                Hwf'); [|done..].
    rewrite Hloops, Hca. cbn. lia.
Qed.

End collapse_convert_facts.

(** * The further properties on the sample inputs *)

Lemma elements_order_nat (X : gset nat) : elements X ≡ₚ elements X.
Proof. reflexivity. Defined.

Lemma sources_symmetric :
  ∀ g, g ∈ [g_ab; g_cd] → symmetric g.
Proof.
  intros g Hg. apply graph_wf_symmetric.
  apply elem_of_cons in Hg as [->|Hg];
    [|apply list_elem_of_singleton in Hg as ->];
    apply graph_wf_add_edge, graph_wf_empty.
Defined.

Lemma collapse_sym_ok :
  collapse_sym
  = (collapse_sym.1, Ok ((maps_of collapse_sym).1, (maps_of collapse_sym).2)).
Proof. vm_compute. reflexivity. Defined.

Lemma method_sym_ok : method_sym = (method_sym.1, Ok (mapping_of method_sym)).
Proof. vm_compute. reflexivity. Defined.

Lemma collapse_across_raises :
  collapse_across = (collapse_across.1, Raise KeyError).
Proof. vm_compute. reflexivity. Defined.

Lemma collapse_pairs_wf : mg_wf collapse_pairs.1.
Proof.
  exact (mg_wf_collapse_loop elements all_str _ 0 _ ∅ ∅ fresh mg_wf_empty).
Defined.

Lemma fused_none_fuse :
  fuse elements 0%Z oracle_none [g_ab] None () = ([], Ok fused_none).
Proof. vm_compute. reflexivity. Defined.

Lemma fused_none_wf : graph_wf fused_none.
Proof. exact (fuse_graph_wf _ _ _ _ _ _ _ _ fused_none_fuse). Defined.

Lemma fused_none_apart : ¬ connected fused_none "a" "b".
Proof.
  intros Hc.
  apply (plain_bfs_spec fused_none "a" "b" fused_none_wf) in Hc;
    [|vm_compute; reflexivity].
  vm_compute in Hc. discriminate Hc.
Defined.

Lemma collapse_cross_edge_raises_witness :
  collapse_none.2 = Raise KeyError ∧ method_none.2 = Raise KeyError.
Proof.
  apply (collapse_cross_edge_raises elements elements_order all_str
           fused_none [g_ab] fresh g_ab "a" "b").
  - exact fused_none_wf.
  - reflexivity.
  - by left.
  - vm_compute. reflexivity.
  - vm_compute. reflexivity.
  - vm_compute. reflexivity.
  - exact fused_none_apart.
Defined.

Lemma fuse_is_undirected_witness :
  nx_has_edge fused_pairs "b" "a" ∧
  "a" ∈ dom fused_pairs ∧ "b" ∈ dom fused_pairs.
Proof.
  apply (fuse_is_undirected elements 0%Z oracle_pairs [g_ab; g_cd] None ()
           [] fused_pairs "a" "b").
  - exact fused_pairs_fuse.
  - vm_compute. reflexivity.
Defined.

Lemma fuse_returns_iff_witness :
  (∃ out G, fuse elements 0%Z oracle_fails [g_ab] None () = (out, Ok G)) ↔
  vertex_union [g_ab] = ∅ ∨
  (None ≠ Some 0%Z ∧
   ∀ u, u ∈ vertex_union [g_ab] →
     is_ok (oracle_fails u (vertex_union [g_ab] ∖ {[u]}) 0%Z ()) = true).
Proof.
  exact (fuse_returns_iff elements elements_order 0%Z oracle_fails [g_ab]
           None ()).
Defined.

Lemma fuse_verbose_only_prints_witness :
  (fuse elements 0%Z oracle_pairs [g_ab; g_cd] (Some 2%Z) ()).2
  = (fuse elements 0%Z oracle_pairs [g_ab; g_cd] None ()).2.
Proof.
  apply (fuse_verbose_only_prints elements 0%Z oracle_pairs [g_ab; g_cd]
           (Some 2%Z) ()).
  discriminate.
Defined.

Lemma fuse_raises_only_oracle_errors_witness :
  (None = Some 0%Z ∧ OracleError "no vector" = ZeroDivisionError) ∨
  ∃ u, u ∈ vertex_union [g_ab] ∧
       oracle_fails u (vertex_union [g_ab] ∖ {[u]}) 0%Z ()
       = Raise (OracleError "no vector").
Proof.
  apply (fuse_raises_only_oracle_errors elements elements_order 0%Z
           oracle_fails [g_ab] None () []).
  vm_compute. reflexivity.
Defined.

Lemma fuse_output_witness :
  (fuse elements 0%Z oracle_pairs [g_ab; g_cd] (Some 2%Z) ()).1
  = ((λ j, Progress j (size (vertex_union [g_ab; g_cd])) 0%Z)
     <$> filter (λ j, (Z.of_nat j `mod` 2)%Z = 0%Z)
           (seq 1 (size (vertex_union [g_ab; g_cd]))))
    ++ [PerformedFuse].
Proof.
  apply (fuse_output elements elements_order 0%Z oracle_pairs [g_ab; g_cd]
           2%Z () _ fused_pairs).
  vm_compute. reflexivity.
Defined.

Lemma NetworkFuser_fuse_returns_iff_witness :
  is_ok (NetworkFuser_fuse elements Z.gtb sample_self [g_x] (Some 2%Z)) = true ↔
  vertex_union [g_x] = ∅ ∨
  (size (vertex_union [g_x]) = 1 ∧
   Some 2%Z ≠ Some 0%Z ∧ Some 2%Z ≠ Some 1%Z ∧ Some 2%Z ≠ Some (-1)%Z).
Proof.
  exact (NetworkFuser_fuse_returns_iff elements elements_order Z.gtb
           sample_sim 0%Z [g_x] (Some 2%Z)).
Defined.

Lemma collapse_raises_only_witness :
  (KeyError = TypeError ∧ ∃ u, u ∈ dom fused_pairs ∧ all_str u = false) ∨
  (KeyError = KeyError ∧
   ∃ g u v, g ∈ [g_ab; g_ac] ∧ u ∈ dom fused_pairs ∧ v ∈ nx_adj g u ∧
            ¬ connected fused_pairs u v).
Proof.
  apply (collapse_raises_only elements elements_order all_str fused_pairs
           [g_ab; g_ac] fresh collapse_across.1 KeyError).
  - exact fused_pairs_wf.
  - exact collapse_across_raises.
Defined.

Lemma collapse_returns_iff_witness :
  (is_ok collapse_sym.2 = true ↔
   (∀ u, u ∈ dom fused_pairs → all_str u = true) ∧
   (∀ g u v, g ∈ [g_ab; g_cd] → u ∈ dom fused_pairs → v ∈ nx_adj g u →
      connected fused_pairs u v)) ∧
  (is_ok method_sym.2 = true ↔
   (∀ u, u ∈ dom fused_pairs → all_str u = true) ∧
   (∀ g u v, g ∈ [g_ab; g_cd] → u ∈ dom fused_pairs → v ∈ nx_adj g u →
      connected fused_pairs u v)).
Proof.
  apply (collapse_returns_iff elements elements_order all_str fused_pairs
           [g_ab; g_cd] fresh).
  - exact fused_pairs_wf.
  - exact sources_symmetric.
Defined.

Lemma collapse_same_id_iff_connected_witness :
  ((maps_of collapse_sym).2 !! "a" = (maps_of collapse_sym).2 !! "b"
   ↔ connected fused_pairs "a" "b") ∧
  (mapping_of method_sym !! "a" = mapping_of method_sym !! "c"
   ↔ connected fused_pairs "a" "c").
Proof.
  split.
  - apply (proj1 (collapse_same_id_iff_connected elements elements_order
             all_str fused_pairs (PyGraph <$> [g_ab; g_cd]) fresh "a" "b"
             fused_pairs_wf ltac:(vm_compute; reflexivity))
             collapse_sym.1 (maps_of collapse_sym).1).
    exact collapse_sym_ok.
  - apply (proj2 (collapse_same_id_iff_connected elements elements_order
             all_str fused_pairs (PyGraph <$> [g_ab; g_cd]) fresh "a" "c"
             fused_pairs_wf ltac:(vm_compute; reflexivity))
             method_sym.1).
    exact method_sym_ok.
Defined.

Lemma collapse_ids_by_size_witness :
  (∀ i, is_Some ((maps_of collapse_sym).1 !! i)
        ↔ i < size (maps_of collapse_sym).1) ∧
  (∀ i ci, (maps_of collapse_sym).1 !! i = Some ci → ci ≠ ∅) ∧
  (∀ i j ci cj,
     (maps_of collapse_sym).1 !! i = Some ci →
     (maps_of collapse_sym).1 !! j = Some cj → i ≤ j → size ci ≤ size cj).
Proof.
  apply (collapse_ids_by_size elements elements_order all_str fused_pairs
           (PyGraph <$> [g_ab; g_cd]) fresh collapse_sym.1
           (maps_of collapse_sym).1 (maps_of collapse_sym).2).
  - exact fused_pairs_wf.
  - exact collapse_sym_ok.
Defined.

Lemma collapse_adds_only_self_loops_witness :
  mg_number_of_edges collapse_sym.1 0 1 = mg_number_of_edges fresh 0 1.
Proof.
  apply (collapse_adds_only_self_loops elements elements_order all_str
           fused_pairs [g_ab; g_cd] fresh collapse_sym.1
           (maps_of collapse_sym).1 (maps_of collapse_sym).2 0 1).
  - exact fused_pairs_wf.
  - exact sources_symmetric.
  - exact collapse_sym_ok.
  - discriminate.
Defined.

Lemma collapse_nodes_witness :
  mg_nodes collapse_pairs.1 = mg_nodes fresh ∪ dom (maps_of collapse_pairs).1.
Proof.
  apply (collapse_nodes elements elements_order all_str fused_pairs
           (PyGraph <$> [g_ab; g_cd; g_arc]) fresh collapse_pairs.1
           (maps_of collapse_pairs).1 (maps_of collapse_pairs).2).
  - exact fused_pairs_wf.
  - exact collapse_pairs_ok.
Defined.

Lemma NetworkFuser_collapse_fused_set_witness :
  ∃ c, mg_fused_set method_sym.1 !! 1 = Some c ∧
       ∀ v, v ∈ c ↔ mapping_of method_sym !! v = Some 1.
Proof.
  apply (NetworkFuser_collapse_fused_set elements elements_order all_str
           fused_pairs (PyGraph <$> [g_ab; g_cd]) fresh method_sym.1
           (mapping_of method_sym) "a" 1).
  - exact fused_pairs_wf.
  - exact method_sym_ok.
  - vm_compute. reflexivity.
Defined.

Lemma collapse_skips_strangers_witness :
  collapse_fused_graph elements all_str fused_ab
    ([PyGraph g_ab] ++ PyGraph g_cd :: []) fresh
  = collapse_fused_graph elements all_str fused_ab ([PyGraph g_ab] ++ [])
      fresh.
Proof.
  apply (collapse_skips_strangers elements elements_order all_str fused_ab
           [PyGraph g_ab] (PyGraph g_cd) [] fresh).
  - exact fused_ab_wf.
  - intros u Hu Hd.
    assert (dom fused_ab ∩ dom g_cd = ∅) as Hdisj by (vm_compute; reflexivity).
    assert (u ∈ dom fused_ab ∩ dom g_cd) as Hin.
    { apply elem_of_intersection. split; assumption. }
    rewrite Hdisj in Hin. exact (not_elem_of_empty u Hin).
Defined.

Lemma fuse_collapse_analogs_share_id_witness :
  ∃ i, (maps_of collapse_pairs).2 !! "a" = Some i ∧
       (maps_of collapse_pairs).2 !! "b" = Some i.
Proof.
  apply (fuse_collapse_analogs_share_id elements elements_order all_str 0%Z
           oracle_pairs [g_ab; g_cd] None () [] fused_pairs
           (PyGraph <$> [g_ab; g_cd; g_arc]) fresh collapse_pairs.1
           (maps_of collapse_pairs).1 (maps_of collapse_pairs).2 "a" "b").
  - exact fused_pairs_fuse.
  - exact collapse_pairs_ok.
  - vm_compute. reflexivity.
  - exists ["b"]. split; [reflexivity|]. by left.
Defined.

Lemma fuse_collapse_edges_within_witness :
  ∃ i, (maps_of collapse_sym).2 !! "c" = Some i ∧
       (maps_of collapse_sym).2 !! "d" = Some i.
Proof.
  apply (fuse_collapse_edges_within elements elements_order all_str 0%Z
           oracle_pairs [g_ab; g_cd] None () [] fused_pairs fresh
           collapse_sym.1 (maps_of collapse_sym).1 (maps_of collapse_sym).2
           g_cd "c" "d").
  - exact fused_pairs_fuse.
  - exact sources_symmetric.
  - exact collapse_sym_ok.
  - right. by left.
  - vm_compute. reflexivity.
Defined.

Lemma convert_graph_one_arc_per_pair_witness :
  (nx_has_edge (convert_graph elements collapse_pairs.1 ∅) 1 0 ∨
   nx_has_edge (convert_graph elements collapse_pairs.1 ∅) 0 1
   ↔ 0 < mg_number_of_edges collapse_pairs.1 1 0) ∧
  (nx_has_edge (convert_graph elements collapse_pairs.1 ∅) 1 0 →
   nx_has_edge (convert_graph elements collapse_pairs.1 ∅) 0 1 → 1 = 0).
Proof.
  apply (convert_graph_one_arc_per_pair elements elements_order_nat
           collapse_pairs.1 1 0).
  exact collapse_pairs_wf.
Defined.

Lemma convert_graph_nodes_witness :
  1 ∈ dom (convert_graph elements collapse_pairs.1 ∅)
  ↔ ∃ y, 0 < mg_number_of_edges collapse_pairs.1 1 y.
Proof.
  apply (convert_graph_nodes elements elements_order_nat collapse_pairs.1 1).
  exact collapse_pairs_wf.
Defined.

Lemma collapse_convert_only_self_loops_witness :
  nx_has_edge (convert_graph elements collapse_sym.1 ∅) 1 1
  ↔ 1 = 1 ∧ ∃ ca, (maps_of collapse_sym).1 !! 1 = Some ca ∧
                   0 < entries [g_ab; g_cd] ca ca.
Proof.
  apply (collapse_convert_only_self_loops elements elements_order all_str
           elements elements_order_nat fused_pairs [g_ab; g_cd]
           collapse_sym.1 (maps_of collapse_sym).1 (maps_of collapse_sym).2
           1 1).
  - exact fused_pairs_wf.
  - exact sources_symmetric.
  - exact collapse_sym_ok.
Defined.

Lemma NetworkFuser_collapse_asserts_witness :
  ((NetworkFuser_collapse elements all_str fused_ab [PyList ["x"]] fresh).2
   = Raise AssertionError
   ↔ ∃ x, x ∈ [PyList ["x"]] ∧ isinstance_Graph (Node := string) x = false) ∧
  ((NetworkFuser_collapse elements all_str fused_ab [PyList ["x"]] fresh).2
   = Raise AssertionError →
   (NetworkFuser_collapse elements all_str fused_ab [PyList ["x"]] fresh).1
   = fresh).
Proof.
  exact (NetworkFuser_collapse_asserts elements elements_order all_str
           fused_ab [PyList ["x"]] fresh).
Defined.
